(** * PageRank: the transition model and the two estimators of [Pagerank.py]

    A shallow embedding of [transition_model], [sample_pagerank] and
    [iterate_pagerank].  Python numbers are modelled in exact rational
    arithmetic ([Q], compared with [==]); dictionaries are insertion-ordered
    association lists, because the iteration order of a [dict] decides the
    order of the in-place updates of [iterate_pagerank]; Python exceptions are
    the [Raise] results of a small error monad; the [while] loop of
    [iterate_pagerank] runs on fuel, one unit per pass.  [crawl] and [main]
    are embedded over a file system given as an argument, whose operations
    can fail.

    The same code is also embedded over binary64 numbers, in the module
    [Doubles]: Python computes the probabilities and the ranks in doubles,
    and what holds of the exact numbers need not survive the rounding.  The
    statements over [Q] are statements about the computation in exact
    arithmetic; where rounding changes the outcome, the run of the code in
    doubles is evaluated in [Doubles]. *)

From Stdlib Require Import String List Permutation Sorted ZArith QArith Qabs Bool.
From Stdlib Require Import Lia Lqa.
From Stdlib Require Import NArith PrimFloat Uint63 DecimalString DecimalNat.
Import ListNotations.

Local Open Scope Q_scope.

(** ** Exceptions and results *)

Inductive exn : Set :=
| KeyError
| IndexError
| ValueError
| ZeroDivisionError
| OSError
| UnicodeDecodeError.

Inductive result (A : Type) : Type :=
| Ok (a : A)
| Raise (e : exn).

Arguments Ok {A} a.
Arguments Raise {A} e.

Definition bind {A B : Type} (m : result A) (f : A -> result B) : result B :=
  match m with
  | Ok a => f a
  | Raise e => Raise e
  end.

Notation "x <- m ;; k" := (bind m (fun x => k))
  (at level 61, m at next level, right associativity).

(** [for x in xs: acc = f(acc, x)], stopping at the first exception. *)
Fixpoint foldM {A B : Type} (f : A -> B -> result A) (xs : list B) (a : A)
  : result A :=
  match xs with
  | [] => Ok a
  | x :: xs' => a' <- f a x ;; foldM f xs' a'
  end.

(** A comprehension [[f(x) for x in xs]], stopping at the first exception. *)
Fixpoint mapM {A B : Type} (f : A -> result B) (xs : list A)
  : result (list B) :=
  match xs with
  | [] => Ok []
  | x :: xs' => y <- f x ;; ys <- mapM f xs' ;; Ok (y :: ys)
  end.

(** ** Pages and dictionaries *)

Definition Page : Set := string.

(** A Python [dict] keyed by pages, in insertion order. *)
Definition dict (V : Type) : Type := list (Page * V).

Definition keys {V} (d : dict V) : list Page := map fst d.
Definition values {V} (d : dict V) : list V := map snd d.

(** [d[k]]: raises [KeyError] on a missing key. *)
Fixpoint get {V} (d : dict V) (k : Page) : result V :=
  match d with
  | [] => Raise KeyError
  | (k', v) :: d' => if String.eqb k k' then Ok v else get d' k
  end.

(** [d[k] = v]: overwrites in place, or appends a new key. *)
Fixpoint set {V} (d : dict V) (k : Page) (v : V) : dict V :=
  match d with
  | [] => [(k, v)]
  | (k', v') :: d' =>
      if String.eqb k k' then (k', v) :: d' else (k', v') :: set d' k v
  end.

(** [dict(pairs)]. *)
Definition dict_of {V} (pairs : list (Page * V)) : dict V :=
  fold_left (fun d kv => set d (fst kv) (snd kv)) pairs [].

(** [dict(zip(ks, vs))]. *)
Definition dict_zip {V} (ks : list Page) (vs : list V) : dict V :=
  dict_of (combine ks vs).

(** [x in xs]. *)
Definition mem (x : Page) (xs : list Page) : bool :=
  existsb (String.eqb x) xs.

(** [len(xs)] as a number. *)
Definition len {A} (xs : list A) : Q := inject_Z (Z.of_nat (length xs)).

(** [a / b]: true division, raising [ZeroDivisionError] on a zero divisor. *)
Definition pydiv (a b : Q) : result Q :=
  if Qeq_bool b 0 then Raise ZeroDivisionError else Ok (a / b).

(** [sum(xs)]. *)
Definition sum (xs : list Q) : Q := fold_right Qplus 0 xs.

(** A corpus maps each page to the set of pages it links to.  A Python [set]
    is modelled as a duplicate-free list in its iteration order. *)
Definition Corpus : Type := dict (list Page).

(** The link-graph invariants.  The first two say that the value is a [dict]
    of [set]s; the last two are what [crawl] establishes. *)
Record link_graph (corpus : Corpus) : Prop := {
  keys_unique : NoDup (keys corpus);
  links_unique : forall p ls, In (p, ls) corpus -> NoDup ls;
  links_closed : forall p ls q, In (p, ls) corpus -> In q ls -> In q (keys corpus);
  no_self_link : forall p ls, In (p, ls) corpus -> ~ In p ls
}.

(** ** The random source

    [random.choice] and [random.choices] are driven by an arbitrary sequence of
    raw outcomes [rnd]: the [i]-th call picks the element at index
    [rnd i mod len(population)].  Every element of the population is a possible
    outcome, so a statement for all [rnd] covers every run. *)

Definition RandomSource : Set := nat -> nat.

(** [random.choice(seq)]: [IndexError] on an empty sequence. *)
Definition random_choice {A} (r : nat) (seq : list A) : result A :=
  match nth_error seq (r mod length seq) with
  | Some x => Ok x
  | None => Raise IndexError
  end.

(** [random.choices(population, weights)[0]]: [ValueError] when the two lengths
    differ or when the total weight is not positive. *)
Definition random_choices {A} (r : nat) (population : list A) (weights : list Q)
  : result A :=
  if negb (Nat.eqb (length weights) (length population)) then Raise ValueError
  else match population with
       | [] => Raise IndexError
       | _ :: _ =>
           if Qle_bool (sum weights) 0 then Raise ValueError
           else random_choice r population
       end.

(** ** [transition_model] *)

(** [for corpus_links in links: specific_factor[corpus_links] += bonus]. *)
Definition add_link (bonus : Q) (specific_factor : dict Q) (corpus_links : Page)
  : result (dict Q) :=
  old <- get specific_factor corpus_links ;;
  Ok (set specific_factor corpus_links (old + bonus)).

Definition transition_model (corpus : Corpus) (page : Page) (damping_factor : Q)
  : result (dict Q) :=
  page_links <- get corpus page ;;
  match page_links with
  | _ :: _ =>
      base <- pydiv (1 - damping_factor) (len corpus) ;;
      let random_factor := repeat base (length corpus) in
      let specific_factor := dict_zip (keys corpus) random_factor in
      links <- pydiv damping_factor (len page_links) ;;
      foldM (add_link links) page_links specific_factor
  | [] =>
      uniform <- pydiv 1 (len corpus) ;;
      Ok (dict_zip (keys corpus) (repeat uniform (length corpus)))
  end.

(** ** [sample_pagerank] *)

(** One iteration of the sampling loop: count the current page, then move. *)
Definition sample_step (rnd : RandomSource) (corpus : Corpus) (damping_factor : Q)
  (i : nat) (st : dict Z * Page) : result (dict Z * Page) :=
  let (sample_ranks, corpus_page) := st in
  count <- get sample_ranks corpus_page ;;
  let sample_ranks := set sample_ranks corpus_page (count + 1)%Z in
  internation <- transition_model corpus corpus_page damping_factor ;;
  next <- random_choices (rnd (S i)) (keys internation) (values internation) ;;
  Ok (sample_ranks, next).

(** [k] iterations of the loop, the first of which is iteration number [i]. *)
Fixpoint sample_loop (rnd : RandomSource) (corpus : Corpus) (damping_factor : Q)
  (k i : nat) (st : dict Z * Page) : result (dict Z * Page) :=
  match k with
  | O => Ok st
  | S k' =>
      st' <- sample_step rnd corpus damping_factor i st ;;
      sample_loop rnd corpus damping_factor k' (S i) st'
  end.

(** The visit counters at the end of the walk: [range(n - 1)] iterations. *)
Definition sample_counts (rnd : RandomSource) (corpus : Corpus)
  (damping_factor : Q) (n : Z) : result (dict Z) :=
  let sample_ranks := dict_zip (keys corpus) (repeat 0%Z (length corpus)) in
  corpus_page <- random_choice (rnd O) (keys corpus) ;;
  st <- sample_loop rnd corpus damping_factor (Z.to_nat (n - 1)) O
          (sample_ranks, corpus_page) ;;
  Ok (fst st).

(** [{page: num_samples / n for page, num_samples in sample_ranks.items()}]. *)
Definition proportion (n : Z) (item : Page * Z) : result (Page * Q) :=
  q <- pydiv (inject_Z (snd item)) (inject_Z n) ;;
  Ok (fst item, q).

Definition sample_pagerank (rnd : RandomSource) (corpus : Corpus)
  (damping_factor : Q) (n : Z) : result (dict Q) :=
  sample_ranks <- sample_counts rnd corpus damping_factor n ;;
  mapM (proportion n) sample_ranks.

(** ** [iterate_pagerank] *)

(** A per-page change: [math.inf] before the first pass, a number after. *)
Inductive change : Set :=
| Inf
| Fin (q : Q).

Definition threshold : Q := 1 # 1000.

(** [c > 0.001]. *)
Definition exceeds (c : change) : bool :=
  match c with
  | Inf => true
  | Fin q => negb (Qle_bool q threshold)
  end.

(** [any(c > 0.001 for c in interate_changes.values())]. *)
Definition any_exceeds (interate_changes : dict change) : bool :=
  existsb exceeds (values interate_changes).

(** The body of the inner loop over [corpus.items()]: a page without links
    counts as linking to every page. *)
Definition add_share (corpus : Corpus) (interate_rank : dict Q) (page : Page)
  (link_counter : Q) (item : Page * list Page) : result Q :=
  let (page_link, links) := item in
  let links := match links with [] => keys corpus | _ :: _ => links end in
  if mem page links then
    r <- get interate_rank page_link ;;
    share <- pydiv r (len links) ;;
    Ok (link_counter + share)
  else Ok link_counter.

(** The new rank of [page], computed from the rank dictionary as it stands. *)
Definition new_rank (corpus : Corpus) (damping_factor : Q)
  (interate_rank : dict Q) (page : Page) : result Q :=
  link_counter <- foldM (add_share corpus interate_rank page) corpus 0 ;;
  base <- pydiv (1 - damping_factor) (len corpus) ;;
  Ok (base + damping_factor * link_counter).

(** The body of the loop over the pages: both dictionaries are updated in
    place. *)
Definition update_page (corpus : Corpus) (damping_factor : Q)
  (st : dict Q * dict change) (page : Page) : result (dict Q * dict change) :=
  let (interate_rank, interate_changes) := st in
  new <- new_rank corpus damping_factor interate_rank page ;;
  old <- get interate_rank page ;;
  Ok (set interate_rank page new, set interate_changes page (Fin (Qabs (new - old)))).

(** One pass of the [for page in interate_rank.keys()] loop. *)
Definition iterate_pass (corpus : Corpus) (damping_factor : Q)
  (st : dict Q * dict change) : result (dict Q * dict change) :=
  foldM (update_page corpus damping_factor) (keys (fst st)) st.

(** The [while] loop: [None] when [fuel] passes were not enough. *)
Fixpoint iterate_loop (fuel : nat) (corpus : Corpus) (damping_factor : Q)
  (st : dict Q * dict change) : option (result (dict Q)) :=
  if any_exceeds (snd st) then
    match fuel with
    | O => None
    | S fuel' =>
        match iterate_pass corpus damping_factor st with
        | Ok st' => iterate_loop fuel' corpus damping_factor st'
        | Raise e => Some (Raise e)
        end
    end
  else Some (Ok (fst st)).

(** The state before the first pass. *)
Definition iterate_init (corpus : Corpus) : result (dict Q * dict change) :=
  let total := length corpus in
  start <- pydiv 1 (len corpus) ;;
  Ok (dict_zip (keys corpus) (repeat start total),
      dict_zip (keys corpus) (repeat Inf total)).

Definition iterate_pagerank (fuel : nat) (corpus : Corpus) (damping_factor : Q)
  : option (result (dict Q)) :=
  match iterate_init corpus with
  | Ok st => iterate_loop fuel corpus damping_factor st
  | Raise e => Some (Raise e)
  end.

(** ** Sample corpora *)

Definition two_pages : Corpus :=
  [("1.html", ["2.html"]); ("2.html", ["1.html"])]%string.

Definition sink_corpus : Corpus :=
  [("1.html", []); ("2.html", ["1.html"])]%string.

Definition single_page : Corpus := [("a.html", [])]%string.

(** ** Closed forms used in the statements *)

(** The probability that [transition_model] gives to page [k] from a page whose
    set of links is [links]. *)
Definition transition_prob (corpus : Corpus) (links : list Page) (d : Q) (k : Page)
  : Q :=
  match links with
  | [] => 1 / len corpus
  | _ :: _ =>
      if mem k links then (1 - d) / len corpus + d / len links
      else (1 - d) / len corpus
  end.

(** [sum(counts.values())] on integer counters. *)
Definition total (counts : list Z) : Z := fold_right Z.add 0%Z counts.

(** What holds of the counters and the current page after a walk whose loop
    has run [i] times. *)
Definition walk_inv (corpus : Corpus) (i : Z) (st : dict Z * Page) : Prop :=
  keys (fst st) = keys corpus /\
  In (snd st) (keys corpus) /\
  Forall (fun c => (0 <= c)%Z) (values (fst st)) /\
  total (values (fst st)) = i.

(** The ranks that the final comprehension of [sample_pagerank] builds. *)
Definition proportions (n : Z) (counts : dict Z) : dict Q :=
  map (fun item => (fst item, inject_Z (snd item) / inject_Z n)) counts.

(** ** The in-place sweep as a system of equations

    [sumn n f] is the sum of [f 0], ..., [f (n - 1)].  These definitions state
    one pass of [iterate_pagerank] by position: [m i j] is the share of the
    rank of page [j] that goes to page [i], and page [i] is updated from the
    new ranks of the pages before it and the old ranks of the others. *)

Fixpoint sumn (n : nat) (f : nat -> Q) : Q :=
  match n with
  | O => 0
  | S k => sumn k f + f k
  end.

Definition mixed (i : nat) (new old : nat -> Q) (j : nat) : Q :=
  if (j <? i)%nat then new j else old j.

Definition sweeps (N : nat) (m : nat -> nat -> Q) (c d : Q) (X Y : nat -> Q)
  : Prop :=
  forall i, (i < N)%nat -> Y i == c + d * sumn N (fun j => m i j * mixed i Y X j).

(** The part of column [j] that lies below the diagonal, and the rest. *)
Definition below (N : nat) (m : nat -> nat -> Q) (j : nat) : Q :=
  sumn N (fun i => if (j <? i)%nat then m i j else 0).

Definition upper (N : nat) (m : nat -> nat -> Q) (j : nat) : Q :=
  sumn N (fun i => if (j <? i)%nat then 0 else m i j).

Definition delta (X Y : nat -> Q) (j : nat) : Q := Qabs (Y j - X j).

(** The weighted sum of changes that every pass shrinks by the factor [d]. *)
Definition weighted (N : nat) (m : nat -> nat -> Q) (d : Q) (v : nat -> Q) : Q :=
  sumn N (fun j => v j * (1 - d * below N m j)).

(** ** One pass of [iterate_pagerank], page by page

    [swept corpus d done todo new ch] follows the loop over the pages from a
    rank dictionary [done ++ todo] whose entries [done] have been updated: each
    entry of [todo] in turn gets its new rank, computed from the dictionary as
    it stands at that moment; [new] collects the updated entries and [ch] their
    changes. *)
Inductive swept (corpus : Corpus) (d : Q)
  : dict Q -> dict Q -> dict Q -> dict change -> Prop :=
| swept_nil (done : dict Q) : swept corpus d done [] [] []
| swept_cons (done : dict Q) (p : Page) (x v : Q) (todo new : dict Q)
    (ch : dict change) :
    new_rank corpus d (done ++ (p, x) :: todo) p = Ok v ->
    swept corpus d (done ++ [(p, v)]) todo new ch ->
    swept corpus d done ((p, x) :: todo) ((p, v) :: new)
      ((p, Fin (Qabs (v - x))) :: ch).

(** The set a page is taken to link to: every page, when it has no link. *)
Definition effective_links (corpus : Corpus) (links : list Page) : list Page :=
  match links with
  | [] => keys corpus
  | _ :: _ => links
  end.

(** The share of the rank of a page with links [links] that goes to [page]. *)
Definition weight (corpus : Corpus) (page : Page) (links : list Page) : Q :=
  if mem page (effective_links corpus links)
  then 1 / len (effective_links corpus links)
  else 0.

(** The rank that dictionary [r] holds for page [p]. *)
Definition val (r : dict Q) (p : Page) : Q :=
  match get r p with
  | Ok v => v
  | Raise _ => 0
  end.

(** The rank at position [j] of a dictionary, and the matrix of shares of a
    corpus by positions. *)
Definition vec (r : dict Q) (j : nat) : Q := nth j (values r) 0.

Definition share_matrix (corpus : Corpus) (i j : nat) : Q :=
  weight corpus (nth i (keys corpus) EmptyString)
    (snd (nth j corpus (EmptyString, []))).

(** [d ** k]. *)
Fixpoint qpow (d : Q) (k : nat) : Q :=
  match k with
  | O => 1
  | S k' => d * qpow d k'
  end.

(** A corpus on which the ranks oscillate when the damping factor is one:
    [a -> c -> b -> a], and [d -> b]. *)
Definition cycle_corpus : Corpus :=
  [("a.html", ["c.html"]); ("b.html", ["a.html"]);
   ("c.html", ["b.html"]); ("d.html", ["b.html"])]%string.

(** What every state of the loop on [cycle_corpus] satisfies: the next pass
    changes the rank of [b.html] by a quarter. *)
Definition oscillates (st : dict Q * dict change) : Prop :=
  keys (fst st) = keys cycle_corpus /\
  keys (snd st) = keys cycle_corpus /\
  any_exceeds (snd st) = true /\
  Qabs (vec (fst st) 2 + vec (fst st) 3 - vec (fst st) 1) == 1 # 4.

(** A corpus that breaks the link-graph invariant: its only page links to a
    page outside the corpus. *)
Definition broken_corpus : Corpus := [("a.html", ["x.html"])]%string.

(** Following the words of the specification: a pass in which every new rank
    is computed from the snapshot of the ranks taken before the pass. *)
Definition snapshot_pass (corpus : Corpus) (d : Q) (rank : dict Q)
  : result (dict Q) :=
  mapM (fun item => v <- new_rank corpus d rank (fst item) ;; Ok (fst item, v))
       rank.

(** A corpus is balanced when every page receives, from all the pages
    together, exactly one page worth of shares. *)
Definition balanced (corpus : Corpus) : Prop :=
  forall p, In p (keys corpus) ->
    sum (map (fun item => weight corpus p (snd item)) corpus) == 1.

(** ** [crawl]

    The directory is read through two operations of the file system, each of
    which can fail: [listdir directory] is [os.listdir(directory)], the names
    in the directory or the [OSError] that the call raises; [hrefs directory
    filename] is the list that [re.findall] returns on the contents of the
    file [os.path.join(directory, filename)], or the exception that [open] or
    [f.read] raises on it (an [OSError] for a file that cannot be opened, a
    [UnicodeDecodeError] for contents that are not text). *)

Record FileSystem : Type := {
  listdir : string -> result (list string);
  hrefs : string -> string -> result (list string)
}.

(** [s.endswith(suffix)]. *)
Definition endswith (s suffix : string) : bool :=
  (String.length suffix <=? String.length s)%nat
  && String.eqb
       (substring (String.length s - String.length suffix)
          (String.length suffix) s)
       suffix.

(** [set(links) - {filename}], as a duplicate-free list. *)
Definition other_links (filename : string) (links : list string) : list Page :=
  filter (fun link => negb (String.eqb link filename)) (nodup string_dec links).

(** The body of the first loop of [crawl]. *)
Definition add_page (fs : FileSystem) (directory : string) (pages : Corpus)
  (filename : string) : result Corpus :=
  if negb (endswith filename ".html") then Ok pages
  else
    links <- hrefs fs directory filename ;;
    Ok (set pages filename (other_links filename links)).

(** The body of the second loop: keep the links that are pages. *)
Definition keep_pages (pages : Corpus) (filename : Page) : result Corpus :=
  links <- get pages filename ;;
  Ok (set pages filename (filter (fun link => mem link (keys pages)) links)).

Definition crawl (fs : FileSystem) (directory : string) : result Corpus :=
  listing <- listdir fs directory ;;
  pages <- foldM (add_page fs directory) listing [] ;;
  foldM keep_pages (keys pages) pages.

(** The pages of a listing: its [.html] files, in the order of the listing. *)
Definition html_files (listing : list string) : list Page :=
  filter (fun filename => endswith filename ".html") listing.

(** The links that [crawl] keeps for a page, when [links filename] are the
    [href]s found in the file of [filename]. *)
Definition crawled_links (listing : list string) (links : Page -> list string)
  (filename : Page) : list Page :=
  filter (fun link => mem link (html_files listing))
    (other_links filename (links filename)).

(** The [href]s read from a file; none where the file cannot be read. *)
Definition hrefs_read (fs : FileSystem) (directory : string) (filename : Page)
  : list string :=
  match hrefs fs directory filename with
  | Ok links => links
  | Raise _ => []
  end.

(** ** [main] *)

Definition DAMPING : Q := 85 # 100.
Definition SAMPLES : Z := 10000.

(** What [main] prints, call by call; the text of a line (the rank with four
    decimals) is left to the output. *)
Inductive line : Type :=
| SamplingTitle (n : Z)
| IterationTitle
| Entry (page : Page) (rank : Q).

(** How a run of [main] ends: [sys.exit] with a message, an exception that
    nothing catches, after the lines printed so far, or the normal end. *)
Inductive outcome : Type :=
| SystemExit (message : string)
| Uncaught (e : exn) (printed : list line)
| Finished (printed : list line).

(** [sorted(pages)], by insertion. *)
Fixpoint insert_sorted (x : string) (l : list string) : list string :=
  match l with
  | [] => [x]
  | y :: l' => if String.leb x y then x :: l else y :: insert_sorted x l'
  end.

Definition sorted (l : list string) : list string :=
  fold_right insert_sorted [] l.

(** [for page in pages: print(page, ranks[page])]: the lines printed, and the
    exception that stopped the loop, if any. *)
Fixpoint print_entries (ranks : dict Q) (pages : list Page)
  : list line * option exn :=
  match pages with
  | [] => ([], None)
  | page :: pages' =>
      match get ranks page with
      | Raise e => ([], Some e)
      | Ok rank =>
          let (printed, stop) := print_entries ranks pages' in
          (Entry page rank :: printed, stop)
      end
  end.

(** [for page in sorted(ranks): print(page, ranks[page])]. *)
Definition print_ranks (ranks : dict Q) : list line * option exn :=
  print_entries ranks (sorted (keys ranks)).

(** [main], with [sys.argv] and the file system as arguments; [None] when
    [fuel] passes were not enough for [iterate_pagerank]. *)
Definition main (fuel : nat) (rnd : RandomSource) (fs : FileSystem)
  (argv : list string) : option outcome :=
  if negb (Nat.eqb (length argv) 2) then
    Some (SystemExit "Usage: python pagerank.py corpus")
  else
    match crawl fs (nth 1 argv EmptyString) with
    | Raise e => Some (Uncaught e [])
    | Ok corpus =>
        match sample_pagerank rnd corpus DAMPING SAMPLES with
        | Raise e => Some (Uncaught e [])
        | Ok ranks =>
            match print_ranks ranks with
            | (sampled, Some e) => Some (Uncaught e (SamplingTitle SAMPLES :: sampled))
            | (sampled, None) =>
                let printed := SamplingTitle SAMPLES :: sampled in
                match iterate_pagerank fuel corpus DAMPING with
                | None => None
                | Some (Raise e) => Some (Uncaught e printed)
                | Some (Ok ranks) =>
                    match print_ranks ranks with
                    | (iterated, Some e) =>
                        Some (Uncaught e (printed ++ IterationTitle :: iterated))
                    | (iterated, None) =>
                        Some (Finished (printed ++ IterationTitle :: iterated))
                    end
                end
            end
        end
    end.

(** The entries that the printing loop writes for [pages], when every page
    has a rank. *)
Definition entries (ranks : dict Q) (pages : list Page) : list line :=
  map (fun page => Entry page (val ranks page)) pages.

(** Page names in ascending order. *)
Definition ascending (pages : list Page) : Prop :=
  Sorted (fun a b => String.leb a b = true) pages.

(** ** Sample directories *)

(** Three pages and a file that is not a page; [1.html] links to itself,
    twice to [2.html] and to a style sheet, [2.html] links to [3.html] and to
    a page that does not exist. *)
Definition site_links (filename : Page) : list string :=
  if String.eqb filename "1.html"
  then ["2.html"; "1.html"; "2.html"; "style.css"]%string
  else if String.eqb filename "2.html"
  then ["3.html"; "4.html"]%string
  else [].

Definition site : FileSystem := {|
  listdir := fun _ => Ok ["1.html"; "notes.txt"; "2.html"; "3.html"]%string;
  hrefs := fun _ filename => Ok (site_links filename)
|}.

(** A directory without pages. *)
Definition empty_site : FileSystem := {|
  listdir := fun _ => Ok ["notes.txt"]%string;
  hrefs := fun _ _ => Ok []
|}.

(** The same three pages, but [2.html] cannot be opened. *)
Definition locked_site : FileSystem := {|
  listdir := fun _ => Ok ["1.html"; "notes.txt"; "2.html"; "3.html"]%string;
  hrefs := fun _ filename =>
    if String.eqb filename "2.html" then Raise OSError
    else Ok (site_links filename)
|}.

(** A directory that cannot be listed. *)
Definition missing_site : FileSystem := {|
  listdir := fun _ => Raise OSError;
  hrefs := fun _ _ => Raise OSError
|}.

(** ** The arithmetic in double precision

    The code over the kernel's binary64 numbers, operation by operation:
    [1 - damping_factor], the divisions by a length, the sums and the
    comparison with [0.001] are the rounded operations of Python's [float]. *)

#[local] Set Warnings "-inexact-float".

Module Doubles.

Local Open Scope float_scope.

(** [len(xs)], converted to a [float] as [/] does with an [int] operand. *)
Definition len {A} (xs : list A) : float :=
  of_uint63 (Uint63.of_Z (Z.of_nat (length xs))).

(** [x / y]: [ZeroDivisionError] when [y] is zero. *)
Definition pydiv (x y : float) : result float :=
  if (y =? 0) then Raise ZeroDivisionError else Ok (x / y).

Definition add_link (bonus : float) (specific_factor : dict float)
  (corpus_links : Page) : result (dict float) :=
  old <- get specific_factor corpus_links ;;
  Ok (set specific_factor corpus_links (old + bonus)).

Definition transition_model (corpus : Corpus) (page : Page) (damping_factor : float)
  : result (dict float) :=
  page_links <- get corpus page ;;
  match page_links with
  | _ :: _ =>
      base <- pydiv (1 - damping_factor) (len corpus) ;;
      let random_factor := repeat base (length corpus) in
      let specific_factor := dict_zip (keys corpus) random_factor in
      links <- pydiv damping_factor (len page_links) ;;
      foldM (add_link links) page_links specific_factor
  | [] =>
      uniform <- pydiv 1 (len corpus) ;;
      Ok (dict_zip (keys corpus) (repeat uniform (length corpus)))
  end.

(** The total of the weights, added from left to right, as
    [itertools.accumulate] adds them in [random.choices]. *)
Definition total (weights : list float) : float :=
  fold_left PrimFloat.add weights 0.

(** [random.choices(population, weights)[0]]: [ValueError] when the two
    lengths differ, when the total weight is not positive, or when it is not
    finite. *)
Definition random_choices {A} (r : nat) (population : list A)
  (weights : list float) : result A :=
  if negb (Nat.eqb (length weights) (length population)) then Raise ValueError
  else match population with
       | [] => Raise IndexError
       | _ :: _ =>
           let t := total weights in
           if (t <=? 0) || PrimFloat.is_nan t || PrimFloat.is_infinity t
           then Raise ValueError
           else random_choice r population
       end.

(** [c > 0.001]; the changes start at [math.inf]. *)
Definition exceeds (c : float) : bool := 0.001 <? c.

Definition any_exceeds (interate_changes : dict float) : bool :=
  existsb exceeds (values interate_changes).

Definition add_share (corpus : Corpus) (interate_rank : dict float) (page : Page)
  (link_counter : float) (item : Page * list Page) : result float :=
  let (page_link, links) := item in
  let links := match links with [] => keys corpus | _ :: _ => links end in
  if mem page links then
    r <- get interate_rank page_link ;;
    share <- pydiv r (len links) ;;
    Ok (link_counter + share)
  else Ok link_counter.

Definition new_rank (corpus : Corpus) (damping_factor : float)
  (interate_rank : dict float) (page : Page) : result float :=
  link_counter <- foldM (add_share corpus interate_rank page) corpus 0 ;;
  base <- pydiv (1 - damping_factor) (len corpus) ;;
  Ok (base + damping_factor * link_counter).

Definition update_page (corpus : Corpus) (damping_factor : float)
  (st : dict float * dict float) (page : Page)
  : result (dict float * dict float) :=
  let (interate_rank, interate_changes) := st in
  new <- new_rank corpus damping_factor interate_rank page ;;
  old <- get interate_rank page ;;
  Ok (set interate_rank page new,
      set interate_changes page (PrimFloat.abs (new - old))).

Definition iterate_pass (corpus : Corpus) (damping_factor : float)
  (st : dict float * dict float) : result (dict float * dict float) :=
  foldM (update_page corpus damping_factor) (keys (fst st)) st.

Fixpoint iterate_loop (fuel : nat) (corpus : Corpus) (damping_factor : float)
  (st : dict float * dict float) : option (result (dict float)) :=
  if any_exceeds (snd st) then
    match fuel with
    | O => None
    | S fuel' =>
        match iterate_pass corpus damping_factor st with
        | Ok st' => iterate_loop fuel' corpus damping_factor st'
        | Raise e => Some (Raise e)
        end
    end
  else Some (Ok (fst st)).

Definition iterate_init (corpus : Corpus) : result (dict float * dict float) :=
  let total := length corpus in
  start <- pydiv 1 (len corpus) ;;
  Ok (dict_zip (keys corpus) (repeat start total),
      dict_zip (keys corpus) (repeat infinity total)).

Definition iterate_pagerank (fuel : nat) (corpus : Corpus) (damping_factor : float)
  : option (result (dict float)) :=
  match iterate_init corpus with
  | Ok st => iterate_loop fuel corpus damping_factor st
  | Raise e => Some (Raise e)
  end.

End Doubles.

(** ** A large corpus of pages without links *)

(** [page0], [page1], ... *)
Definition page_name (i : nat) : Page :=
  ("page" ++ NilEmpty.string_of_uint (Nat.to_uint i))%string.

(** [n] pages, none of which links anywhere. *)
Definition dangling (n : nat) : Corpus :=
  map (fun k => (k, [])) (map page_name (seq 0 n)).

(** A hundred million pages. *)
Definition crowd : Corpus := dangling (Pos.to_nat 100000000).

(** [k s], once [s] has been computed. *)
Definition forced (s : float) (k : float -> float) : float :=
  if PrimFloat.is_nan s then k s else k s.

(** [((s + u) + u) + ... + u] with [p] additions in doubles, from left to
    right, each sum computed before the next addition. *)
Fixpoint add_times (p : positive) (u s : float) : float :=
  match p with
  | xH => PrimFloat.add s u
  | xO p' => forced (add_times p' u s) (add_times p' u)
  | xI p' =>
      forced (add_times p' u s)
        (fun s' => forced (add_times p' u s') (fun s'' => PrimFloat.add s'' u))
  end.

(** * Properties *)

(** ** The code on the sample corpora *)

Example transition_two_pages :
  exists dist,
    transition_model two_pages "1.html"%string (85 # 100) = Ok dist /\
    keys dist = ["1.html"; "2.html"]%string /\
    val dist "1.html"%string == 3 # 40 /\ val dist "2.html"%string == 37 # 40.
Proof.
  eexists. split; [vm_compute; reflexivity|]. repeat split.
Qed.

Example transition_from_sink :
  exists dist,
    transition_model sink_corpus "1.html"%string (85 # 100) = Ok dist /\
    val dist "1.html"%string == 1 # 2 /\ val dist "2.html"%string == 1 # 2.
Proof.
  eexists. split; [vm_compute; reflexivity|]. repeat split.
Qed.

Example iterate_two_pages :
  exists ranks,
    iterate_pagerank 2 two_pages (85 # 100) = Some (Ok ranks) /\
    val ranks "1.html"%string == 1 # 2 /\ val ranks "2.html"%string == 1 # 2.
Proof.
  eexists. split; [vm_compute; reflexivity|]. repeat split.
Qed.

Example iterate_single_page :
  exists ranks,
    iterate_pagerank 2 single_page (85 # 100) = Some (Ok ranks) /\
    val ranks "a.html"%string == 1.
Proof.
  eexists. split; [vm_compute; reflexivity|]. repeat split.
Qed.

Example sample_two_pages :
  exists ranks,
    sample_pagerank (fun i => i) two_pages (85 # 100) 5 = Ok ranks /\
    val ranks "1.html"%string == 2 # 5 /\ val ranks "2.html"%string == 2 # 5.
Proof.
  eexists. split; [vm_compute; reflexivity|]. repeat split.
Qed.

(** ** Results *)

Lemma bind_ret {A B} (a : A) (f : A -> result B) : bind (Ok a) f = f a.
Proof. reflexivity. Qed.

(** ** Dictionaries *)

Section DictFacts.
Context {V : Type}.
Implicit Types (d : dict V) (k : Page) (v : V).

Lemma get_In d k v : get d k = Ok v -> In (k, v) d.
Proof.
  induction d as [|[k' v'] d IH]; simpl; [discriminate|].
  destruct (String.eqb_spec k k') as [->|Hne]; intros H.
  - injection H as ->. now left.
  - right. auto.
Qed.

Lemma get_missing d k : ~ In k (keys d) -> get d k = Raise KeyError.
Proof.
  induction d as [|[k' v'] d IH]; simpl; [reflexivity|].
  intros Hn. destruct (String.eqb_spec k k') as [->|Hne].
  - exfalso. apply Hn. now left.
  - apply IH. intros Hin. apply Hn. now right.
Qed.

Lemma In_get d k v : NoDup (keys d) -> In (k, v) d -> get d k = Ok v.
Proof.
  induction d as [|[k' v'] d IH]; simpl; [contradiction|].
  intros Hnd [Heq|Hin]; inversion Hnd as [|? ? Hk' Hnd']; subst.
  - injection Heq as -> ->. now rewrite String.eqb_refl.
  - destruct (String.eqb_spec k k') as [->|Hne]; [|auto].
    exfalso. apply Hk'. change k' with (fst (k', v)). now apply in_map.
Qed.

Lemma get_present d k : In k (keys d) -> exists v, get d k = Ok v.
Proof.
  induction d as [|[k' v'] d IH]; simpl; [contradiction|].
  intros [<-|Hin].
  - rewrite String.eqb_refl. eauto.
  - destruct (String.eqb k k'); eauto.
Qed.

Lemma set_fresh d k v : ~ In k (keys d) -> set d k v = d ++ [(k, v)].
Proof.
  induction d as [|[k' v'] d IH]; simpl; [reflexivity|].
  intros Hn. destruct (String.eqb_spec k k') as [->|Hne].
  - exfalso. apply Hn. now left.
  - f_equal. apply IH. intros Hin. apply Hn. now right.
Qed.

Lemma dict_of_acc (pairs acc : dict V) :
  NoDup (keys (acc ++ pairs)) ->
  fold_left (fun d kv => set d (fst kv) (snd kv)) pairs acc = acc ++ pairs.
Proof.
  revert acc. induction pairs as [|[k v] pairs IH]; intros acc Hnd; simpl.
  - now rewrite app_nil_r.
  - assert (Hfresh : ~ In k (keys acc)).
    { unfold keys in *. rewrite map_app in Hnd. simpl in Hnd.
      apply NoDup_remove_2 in Hnd. intros Hin. apply Hnd.
      apply in_or_app. now left. }
    rewrite (set_fresh _ _ _ Hfresh).
    rewrite IH; rewrite <- app_assoc; [reflexivity | exact Hnd].
Qed.

(** On distinct keys, [dict(pairs)] keeps the pairs as they are. *)
Lemma dict_of_nodup (pairs : dict V) :
  NoDup (keys pairs) -> dict_of pairs = pairs.
Proof.
  intros Hnd. unfold dict_of. now rewrite dict_of_acc.
Qed.

Lemma combine_repeat (ks : list Page) v :
  combine ks (repeat v (length ks)) = map (fun k => (k, v)) ks.
Proof.
  induction ks as [|k ks IH]; simpl; [reflexivity | now rewrite IH].
Qed.

Lemma keys_tabulate (f : Page -> V) (ks : list Page) :
  keys (map (fun k => (k, f k)) ks) = ks.
Proof.
  unfold keys. rewrite map_map. simpl. apply map_id.
Qed.

Lemma values_tabulate (f : Page -> V) (ks : list Page) :
  values (map (fun k => (k, f k)) ks) = map f ks.
Proof.
  unfold values. now rewrite map_map.
Qed.

(** [dict(zip(keys, [v] * len(keys)))] on distinct keys. *)
Lemma dict_zip_repeat (ks : list Page) v :
  NoDup ks -> dict_zip ks (repeat v (length ks)) = map (fun k => (k, v)) ks.
Proof.
  intros Hnd. unfold dict_zip. rewrite combine_repeat.
  apply dict_of_nodup. now rewrite keys_tabulate.
Qed.

Lemma get_tabulate (f : Page -> V) ks k :
  In k ks -> get (map (fun k => (k, f k)) ks) k = Ok (f k).
Proof.
  induction ks as [|k' ks IH]; simpl; [contradiction|].
  intros Hin. destruct (String.eqb_spec k k') as [->|Hne]; [reflexivity|].
  destruct Hin as [->|Hin]; [contradiction | auto].
Qed.

(** Overwriting one key of a tabulated dictionary. *)
Lemma set_tabulate (f : Page -> V) ks k v :
  NoDup ks -> In k ks ->
  set (map (fun k => (k, f k)) ks) k v
  = map (fun k' => (k', if String.eqb k' k then v else f k')) ks.
Proof.
  induction ks as [|k' ks IH]; simpl; [contradiction|].
  intros Hnd Hin. inversion Hnd as [|? ? Hk' Hnd']; subst.
  rewrite (String.eqb_sym k' k).
  destruct (String.eqb_spec k k') as [->|Hne].
  - f_equal. apply map_ext_in. intros a Ha.
    destruct (String.eqb_spec a k') as [->|_]; [contradiction | reflexivity].
  - f_equal. destruct Hin as [->|Hin]; [contradiction | auto].
Qed.

End DictFacts.

Lemma mem_In x xs : mem x xs = true <-> In x xs.
Proof.
  unfold mem. rewrite existsb_exists. split.
  - intros (y & Hy & Heq). apply String.eqb_eq in Heq. now subst.
  - intros Hin. exists x. split; [exact Hin | apply String.eqb_refl].
Qed.

Lemma mem_not_In x xs : mem x xs = false <-> ~ In x xs.
Proof.
  rewrite <- mem_In. destruct (mem x xs); split; congruence.
Qed.

(** ** Numbers *)

Lemma len_cons {A} (x : A) (xs : list A) : len (x :: xs) == len xs + 1.
Proof.
  unfold len. rewrite <- (inject_Z_plus _ 1). apply inject_Z_injective.
  simpl length. lia.
Qed.

Lemma len_pos {A} (xs : list A) : xs <> [] -> 0 < len xs.
Proof.
  destruct xs as [|x xs]; [congruence|]. intros _.
  unfold len. change 0 with (inject_Z 0). rewrite <- Zlt_Qlt. simpl length. lia.
Qed.

Lemma len_nonneg {A} (xs : list A) : 0 <= len xs.
Proof.
  unfold len. change 0 with (inject_Z 0). rewrite <- Zle_Qle. lia.
Qed.

Lemma inject_Z_nonzero (n : Z) : n <> 0%Z -> ~ inject_Z n == 0.
Proof.
  intros Hn E. apply Hn. now apply (proj1 (inject_Z_injective n 0)).
Qed.

Lemma pydiv_Ok a b : ~ b == 0 -> pydiv a b = Ok (a / b).
Proof.
  intros Hb. unfold pydiv. destruct (Qeq_bool b 0) eqn:E; [|reflexivity].
  apply Qeq_bool_iff in E. contradiction.
Qed.

Lemma pydiv_len {A} a (xs : list A) : xs <> [] -> pydiv a (len xs) = Ok (a / len xs).
Proof.
  intros Hne. apply pydiv_Ok. pose proof (len_pos xs Hne). lra.
Qed.

Lemma sum_app xs ys : sum (xs ++ ys) == sum xs + sum ys.
Proof.
  induction xs as [|x xs IH]; simpl; [lra | rewrite IH; lra].
Qed.

Lemma sum_const {A} (c : Q) (xs : list A) : sum (map (fun _ => c) xs) == len xs * c.
Proof.
  induction xs as [|x xs IH]; [reflexivity|].
  simpl map. simpl sum. rewrite IH, len_cons. lra.
Qed.

(** Adding [b] to the entries selected by [f]. *)
Lemma sum_bonus {A} (f : A -> bool) (a b : Q) (xs : list A) :
  sum (map (fun x => if f x then a + b else a) xs)
  == len xs * a + len (filter f xs) * b.
Proof.
  induction xs as [|x xs IH]; [reflexivity|].
  simpl map. simpl sum. simpl filter. rewrite IH, len_cons.
  destruct (f x); [rewrite len_cons|]; lra.
Qed.

(** A duplicate-free subset of the keys selects exactly its own elements. *)
Lemma filter_mem_length (ks ls : list Page) :
  NoDup ks -> NoDup ls -> incl ls ks ->
  length (filter (fun k => mem k ls) ks) = length ls.
Proof.
  intros Hks Hls Hincl. apply Permutation_length.
  apply NoDup_Permutation; [now apply NoDup_filter | exact Hls |].
  intros x. rewrite filter_In, mem_In. split; [tauto | auto].
Qed.

(** ** The transition model in closed form *)

Lemma length_keys {V} (d : dict V) : length (keys d) = length d.
Proof. apply length_map. Qed.

Lemma In_keys {V} (d : dict V) k v : In (k, v) d -> In k (keys d).
Proof. intros H. change k with (fst (k, v)). now apply in_map. Qed.

Lemma keys_In {V} (d : dict V) k : In k (keys d) -> exists v, In (k, v) d.
Proof.
  unfold keys. rewrite in_map_iff. intros ([k' v] & Heq & Hin).
  simpl in Heq. subst. eauto.
Qed.

(** The loop that adds the link bonus, on a tabulated dictionary. *)
Lemma foldM_add_link (bonus : Q) (ks : list Page) :
  NoDup ks ->
  forall (links : list Page) (g : Page -> Q),
    NoDup links -> incl links ks ->
    foldM (add_link bonus) links (map (fun k => (k, g k)) ks)
    = Ok (map (fun k => (k, if mem k links then g k + bonus else g k)) ks).
Proof.
  intros Hks. induction links as [|l links IH]; intros g Hnd Hincl.
  - reflexivity.
  - inversion Hnd as [|? ? Hl Hnd']; subst.
    assert (Hin : In l ks) by (apply Hincl; now left).
    simpl foldM. unfold add_link at 1.
    rewrite (get_tabulate g ks l Hin). simpl bind.
    rewrite (set_tabulate g ks l _ Hks Hin).
    rewrite (IH (fun k' => if String.eqb k' l then g l + bonus else g k') Hnd').
    + f_equal. apply map_ext. intros k. simpl mem.
      destruct (String.eqb_spec k l) as [->|Hne]; simpl.
      * apply mem_not_In in Hl. now rewrite Hl.
      * reflexivity.
    + intros x Hx. apply Hincl. now right.
Qed.

(** [transition_model] never fails on a page of the corpus whose links are a
    set of pages of the corpus, and its result is known entry by entry. *)
Lemma transition_model_closed (corpus : Corpus) page links d :
  NoDup (keys corpus) -> In (page, links) corpus ->
  NoDup links -> incl links (keys corpus) ->
  transition_model corpus page d
  = Ok (map (fun k => (k, transition_prob corpus links d k)) (keys corpus)).
Proof.
  intros Hks Hin Hnd Hincl.
  assert (Hne : corpus <> []) by (intros ->; contradiction).
  unfold transition_model. rewrite (In_get corpus page links Hks Hin), bind_ret.
  rewrite <- (length_keys corpus).
  destruct links as [|l links].
  - rewrite (pydiv_len _ corpus Hne), bind_ret.
    now rewrite dict_zip_repeat.
  - rewrite (pydiv_len _ corpus Hne), bind_ret.
    rewrite pydiv_len, bind_ret by discriminate.
    rewrite dict_zip_repeat by assumption.
    now rewrite (foldM_add_link _ _ Hks (l :: links) (fun _ => (1 - d) / len corpus)).
Qed.

Lemma link_graph_closed (corpus : Corpus) page links d :
  link_graph corpus -> In (page, links) corpus ->
  transition_model corpus page d
  = Ok (map (fun k => (k, transition_prob corpus links d k)) (keys corpus)).
Proof.
  intros [Hks Hnd Hcl _] Hin. apply transition_model_closed; eauto.
  intros q Hq. eauto.
Qed.

(** The probabilities out of any page add up to one, whatever the damping. *)
Lemma transition_prob_sum (corpus : Corpus) links d :
  corpus <> [] -> NoDup (keys corpus) -> NoDup links -> incl links (keys corpus) ->
  sum (map (transition_prob corpus links d) (keys corpus)) == 1.
Proof.
  intros Hne Hks Hnd Hincl.
  assert (HN : 0 < len corpus) by now apply len_pos.
  assert (HK : len (keys corpus) == len corpus) by (unfold len; now rewrite length_keys).
  destruct links as [|l links].
  - change (map (transition_prob corpus [] d) (keys corpus))
      with (map (fun _ : Page => 1 / len corpus) (keys corpus)).
    rewrite sum_const, HK. field. lra.
  - change (map (transition_prob corpus (l :: links) d) (keys corpus))
      with (map (fun k => if mem k (l :: links)
                          then (1 - d) / len corpus + d / len (l :: links)
                          else (1 - d) / len corpus) (keys corpus)).
    rewrite (sum_bonus (fun k => mem k (l :: links))).
    assert (HL : len (filter (fun k => mem k (l :: links)) (keys corpus))
                 == len (l :: links)).
    { unfold len. now rewrite filter_mem_length. }
    rewrite HL, HK.
    assert (0 < len (l :: links)) by (apply len_pos; discriminate).
    field. split; lra.
Qed.

(** ** Updating one entry of a dictionary *)

Lemma keys_set {V} (d : dict V) k v : In k (keys d) -> keys (set d k v) = keys d.
Proof.
  induction d as [|[k' v'] d IH]; simpl; [contradiction|].
  intros Hin. destruct (String.eqb_spec k k') as [->|Hne]; [reflexivity|].
  simpl. f_equal. apply IH. destruct Hin as [->|Hin]; [contradiction | exact Hin].
Qed.

Lemma Forall_values_set {V} (P : V -> Prop) (d : dict V) k v :
  Forall P (values d) -> P v -> Forall P (values (set d k v)).
Proof.
  intros Hd Hv. induction d as [|[k' v'] d IH]; simpl.
  - now constructor.
  - inversion Hd; subst. destruct (String.eqb k k'); simpl; constructor; auto.
Qed.

Lemma total_set (d : dict Z) k c v :
  get d k = Ok c -> total (values (set d k v)) = (total (values d) - c + v)%Z.
Proof.
  induction d as [|[k' v'] d IH]; simpl; [discriminate|].
  destruct (String.eqb k k'); intros H.
  - injection H as ->. simpl. lia.
  - simpl. rewrite (IH H). lia.
Qed.

Lemma total_zeros {A} (xs : list A) : total (map (fun _ => 0%Z) xs) = 0%Z.
Proof. induction xs; simpl; auto. Qed.

(** ** The random source *)

Lemma random_choice_In {A} (r : nat) (seq : list A) :
  seq <> [] -> exists x, random_choice r seq = Ok x /\ In x seq.
Proof.
  intros Hne. unfold random_choice.
  assert (Hlt : (r mod length seq < length seq)%nat).
  { apply Nat.mod_upper_bound. destruct seq; [contradiction | discriminate]. }
  destruct (nth_error seq (r mod length seq)) as [x|] eqn:E.
  - exists x. split; [reflexivity | eapply nth_error_In; eauto].
  - apply nth_error_None in E. lia.
Qed.

Lemma random_choice_empty {A} (r : nat) : @random_choice A r [] = Raise IndexError.
Proof. unfold random_choice. now destruct (r mod _)%nat. Qed.

Lemma random_choices_In (r : nat) (dist : dict Q) :
  dist <> [] -> 0 < sum (values dist) ->
  exists x, random_choices r (keys dist) (values dist) = Ok x /\ In x (keys dist).
Proof.
  intros Hne Hpos. unfold random_choices.
  unfold keys at 1, values at 1. rewrite !length_map, Nat.eqb_refl. simpl negb.
  cbv iota.
  destruct (keys dist) as [|k ks] eqn:Ek.
  - destruct dist; [congruence | discriminate].
  - destruct (Qle_bool (sum (values dist)) 0) eqn:E.
    + apply Qle_bool_iff in E. lra.
    + apply random_choice_In. discriminate.
Qed.

(** ** The random walk of [sample_pagerank] *)

Lemma transition_model_draw (rnd : RandomSource) (corpus : Corpus) page d j :
  link_graph corpus -> In page (keys corpus) ->
  exists dist next,
    transition_model corpus page d = Ok dist /\
    random_choices (rnd j) (keys dist) (values dist) = Ok next /\
    In next (keys corpus).
Proof.
  intros Hg Hpage. destruct (keys_In _ _ Hpage) as [links Hin].
  assert (Hne : corpus <> []) by (intros ->; contradiction).
  pose proof (link_graph_closed corpus page links d Hg Hin) as Htm.
  set (dist := map (fun k => (k, transition_prob corpus links d k)) (keys corpus)) in *.
  assert (Hk : keys dist = keys corpus) by apply keys_tabulate.
  destruct (random_choices_In (rnd j) dist) as (next & Hnext & Hmem).
  - intros E. apply (f_equal keys) in E. rewrite Hk in E.
    destruct corpus; [congruence | discriminate].
  - unfold dist. rewrite values_tabulate.
    destruct Hg as [Hks Hnd Hcl _].
    rewrite transition_prob_sum; eauto; [lra|]. intros q Hq. eauto.
  - exists dist, next. rewrite Hk in Hmem. auto.
Qed.

Lemma sample_step_inv (rnd : RandomSource) (corpus : Corpus) d j i st :
  link_graph corpus -> walk_inv corpus i st ->
  exists st', sample_step rnd corpus d j st = Ok st' /\ walk_inv corpus (i + 1) st'.
Proof.
  intros Hg. destruct st as [counts page]. intros (Hk & Hpage & Hpos & Htot).
  simpl in Hk, Hpage, Hpos, Htot.
  destruct (get_present counts page) as [c Hc]; [now rewrite Hk|].
  destruct (transition_model_draw rnd corpus page d (S j) Hg Hpage)
    as (dist & next & Htm & Hdraw & Hnext).
  exists (set counts page (c + 1)%Z, next). split.
  - unfold sample_step. now rewrite Hc, bind_ret, Htm, bind_ret, Hdraw, bind_ret.
  - assert (Hc0 : (0 <= c)%Z).
    { rewrite Forall_forall in Hpos. apply Hpos.
      apply get_In in Hc. change c with (snd (page, c)). now apply in_map. }
    repeat split; simpl.
    + rewrite keys_set; [exact Hk | now rewrite Hk].
    + exact Hnext.
    + apply Forall_values_set; [exact Hpos | lia].
    + rewrite (total_set _ _ _ _ Hc). lia.
Qed.

Lemma sample_loop_inv (rnd : RandomSource) (corpus : Corpus) d :
  link_graph corpus ->
  forall k j i st, walk_inv corpus i st ->
    exists st', sample_loop rnd corpus d k j st = Ok st' /\
                walk_inv corpus (i + Z.of_nat k) st'.
Proof.
  intros Hg. induction k as [|k IH]; intros j i st Hinv.
  - exists st. split; [reflexivity|]. now replace (i + Z.of_nat 0)%Z with i by lia.
  - destruct (sample_step_inv rnd corpus d j i st Hg Hinv) as (st1 & Hstep & Hinv1).
    destruct (IH (S j) _ _ Hinv1) as (st' & Hloop & Hinv').
    exists st'. split.
    + simpl sample_loop. now rewrite Hstep, bind_ret.
    + now replace (i + Z.of_nat (S k))%Z with (i + 1 + Z.of_nat k)%Z by lia.
Qed.

(** The counters before the walk. *)
Lemma walk_inv_start (corpus : Corpus) page :
  NoDup (keys corpus) -> In page (keys corpus) ->
  walk_inv corpus 0
    (dict_zip (keys corpus) (repeat 0%Z (length corpus)), page).
Proof.
  intros Hks Hpage. rewrite <- (length_keys corpus), dict_zip_repeat by assumption.
  repeat split; simpl.
  - apply keys_tabulate.
  - exact Hpage.
  - rewrite values_tabulate, Forall_map. apply Forall_forall. intros; lia.
  - rewrite values_tabulate. apply total_zeros.
Qed.

Lemma mapM_proportion (n : Z) (counts : dict Z) :
  n <> 0%Z -> mapM (proportion n) counts = Ok (proportions n counts).
Proof.
  intros Hn. induction counts as [|[p c] counts IH]; [reflexivity|].
  simpl mapM. unfold proportion at 1. rewrite pydiv_Ok, bind_ret.
  - now rewrite bind_ret, IH, bind_ret.
  - now apply inject_Z_nonzero.
Qed.

Lemma keys_proportions (n : Z) (counts : dict Z) :
  keys (proportions n counts) = keys counts.
Proof.
  unfold keys, proportions. rewrite map_map. reflexivity.
Qed.

Lemma sum_proportions (n : Z) (counts : dict Z) :
  n <> 0%Z ->
  sum (values (proportions n counts)) == inject_Z (total (values counts)) / inject_Z n.
Proof.
  intros Hn.
  assert (Hq : ~ inject_Z n == 0) by now apply inject_Z_nonzero.
  induction counts as [|[p c] counts IH]; simpl.
  - field. exact Hq.
  - rewrite IH, inject_Z_plus. field. exact Hq.
Qed.

(** The whole of [sample_pagerank] on a link graph: the walk never fails, its
    loop runs [n - 1] times and counts one visit each time. *)
Lemma sample_pagerank_walk (rnd : RandomSource) (corpus : Corpus) d n :
  link_graph corpus -> corpus <> [] -> (1 <= n)%Z ->
  exists counts,
    sample_counts rnd corpus d n = Ok counts /\
    sample_pagerank rnd corpus d n = Ok (proportions n counts) /\
    keys counts = keys corpus /\
    Forall (fun c => (0 <= c)%Z) (values counts) /\
    total (values counts) = (n - 1)%Z.
Proof.
  intros Hg Hne Hn.
  destruct (random_choice_In (rnd O) (keys corpus)) as (start & Hstart & Hin).
  { destruct corpus; [congruence | discriminate]. }
  pose proof (walk_inv_start corpus start (keys_unique _ Hg) Hin) as Hinv.
  destruct (sample_loop_inv rnd corpus d Hg (Z.to_nat (n - 1)) O _ _ Hinv)
    as ([counts page] & Hloop & Hk & _ & Hpos & Htot).
  simpl in Hk, Hpos, Htot.
  assert (Hcounts : sample_counts rnd corpus d n = Ok counts).
  { unfold sample_counts. now rewrite Hstart, bind_ret, Hloop, bind_ret. }
  exists counts. repeat split; auto.
  - unfold sample_pagerank. rewrite Hcounts, bind_ret. apply mapM_proportion. lia.
  - rewrite Htot. lia.
Qed.

(** ** Finite sums *)

Lemma scale_le (a x y : Q) : 0 <= a -> x <= y -> a * x <= a * y.
Proof. intros. nra. Qed.

Lemma sumn_ext (n : nat) (f g : nat -> Q) :
  (forall i, (i < n)%nat -> f i == g i) -> sumn n f == sumn n g.
Proof.
  induction n as [|n IH]; intros H; simpl; [reflexivity|].
  rewrite IH, (H n) by (intros; auto with arith). reflexivity.
Qed.

Lemma sumn_le (n : nat) (f g : nat -> Q) :
  (forall i, (i < n)%nat -> f i <= g i) -> sumn n f <= sumn n g.
Proof.
  induction n as [|n IH]; intros H; simpl; [lra|].
  assert (sumn n f <= sumn n g) by (apply IH; intros; auto with arith).
  assert (f n <= g n) by (apply H; auto with arith). lra.
Qed.

Lemma sumn_nonneg (n : nat) (f : nat -> Q) :
  (forall i, (i < n)%nat -> 0 <= f i) -> 0 <= sumn n f.
Proof.
  induction n as [|n IH]; intros H; simpl; [lra|].
  assert (0 <= sumn n f) by (apply IH; intros; auto with arith).
  assert (0 <= f n) by (apply H; auto with arith). lra.
Qed.

Lemma sumn_plus (n : nat) (f g : nat -> Q) :
  sumn n (fun i => f i + g i) == sumn n f + sumn n g.
Proof.
  induction n as [|n IH]; simpl; [lra | rewrite IH; lra].
Qed.

Lemma sumn_minus (n : nat) (f g : nat -> Q) :
  sumn n (fun i => f i - g i) == sumn n f - sumn n g.
Proof.
  induction n as [|n IH]; simpl; [lra | rewrite IH; lra].
Qed.

Lemma sumn_scal (n : nat) (a : Q) (f : nat -> Q) :
  sumn n (fun i => a * f i) == a * sumn n f.
Proof.
  induction n as [|n IH]; simpl; [lra | rewrite IH; lra].
Qed.

Lemma sumn_zero (n : nat) : sumn n (fun _ => 0) == 0.
Proof.
  induction n as [|n IH]; simpl; [lra | rewrite IH; lra].
Qed.

Lemma sumn_exchange (n k : nat) (f : nat -> nat -> Q) :
  sumn n (fun i => sumn k (fun j => f i j))
  == sumn k (fun j => sumn n (fun i => f i j)).
Proof.
  induction n as [|n IH]; simpl.
  - now rewrite sumn_zero.
  - rewrite IH, <- sumn_plus. reflexivity.
Qed.

Lemma sumn_abs (n : nat) (f : nat -> Q) :
  Qabs (sumn n f) <= sumn n (fun i => Qabs (f i)).
Proof.
  induction n as [|n IH]; simpl; [apply Qle_refl|].
  eapply Qle_trans; [apply Qabs_triangle|]. lra.
Qed.

(** One entry is at most the whole of a sum of non-negative numbers. *)
Lemma sumn_term_le (n : nat) (f : nat -> Q) (j : nat) :
  (forall i, (i < n)%nat -> 0 <= f i) -> (j < n)%nat -> f j <= sumn n f.
Proof.
  induction n as [|n IH]; intros H Hj; [lia|]. simpl.
  assert (0 <= f n) by (apply H; auto with arith).
  assert (0 <= sumn n f) by (apply sumn_nonneg; intros; apply H; lia).
  destruct (Nat.eq_dec j n) as [->|Hne]; [lra|].
  assert (f j <= sumn n f) by (apply IH; [intros; apply H; lia | lia]). lra.
Qed.

(** ** One in-place sweep shrinks the weighted change *)

Section GaussSeidel.
Variables (N : nat) (m : nat -> nat -> Q) (c d : Q).
Hypothesis m_nonneg : forall i j, 0 <= m i j.
Hypothesis m_col : forall j, (j < N)%nat -> sumn N (fun i => m i j) <= 1.
Hypothesis d_lo : 0 <= d.
Hypothesis d_hi : d <= 1.

Lemma below_upper (j : nat) :
  below N m j + upper N m j == sumn N (fun i => m i j).
Proof.
  unfold below, upper. rewrite <- sumn_plus. apply sumn_ext.
  intros i _. destruct (j <? i)%nat; lra.
Qed.

Lemma below_nonneg (j : nat) : 0 <= below N m j.
Proof.
  apply sumn_nonneg. intros i _. destruct (j <? i)%nat; [apply m_nonneg | lra].
Qed.

Lemma upper_nonneg (j : nat) : 0 <= upper N m j.
Proof.
  apply sumn_nonneg. intros i _. destruct (j <? i)%nat; [lra | apply m_nonneg].
Qed.

Lemma upper_bound (j : nat) : (j < N)%nat -> upper N m j <= 1 - below N m j.
Proof.
  intros Hj. pose proof (below_upper j) as E. pose proof (m_col j Hj). lra.
Qed.

Lemma weight_bounds (j : nat) :
  (j < N)%nat ->
  1 - d <= 1 - d * below N m j /\ upper N m j <= 1 - d * below N m j.
Proof.
  intros Hj. pose proof (upper_bound j Hj). pose proof (upper_nonneg j).
  pose proof (below_nonneg j).
  assert (d * below N m j <= below N m j) by nra.
  assert (d * below N m j <= d) by nra.
  split; lra.
Qed.

Lemma delta_nonneg (X Y : nat -> Q) (j : nat) : 0 <= delta X Y j.
Proof. apply Qabs_nonneg. Qed.

(** The change of one entry in a sweep, bounded by the changes it reads. *)
Lemma delta_step (X Y Z : nat -> Q) :
  sweeps N m c d X Y -> sweeps N m c d Y Z ->
  forall i, (i < N)%nat ->
    delta Y Z i <= d * sumn N (fun j => m i j * mixed i (delta Y Z) (delta X Y) j).
Proof.
  intros HXY HYZ i Hi. unfold delta at 1.
  assert (E : Z i - Y i
              == d * sumn N (fun j => m i j * (mixed i Z Y j - mixed i Y X j))).
  { rewrite (HYZ i Hi), (HXY i Hi).
    transitivity (d * (sumn N (fun j => m i j * mixed i Z Y j)
                       - sumn N (fun j => m i j * mixed i Y X j))); [ring|].
    rewrite <- sumn_minus. apply Qmult_comp; [reflexivity|].
    apply sumn_ext. intros j _. ring. }
  rewrite E, Qabs_Qmult, (Qabs_pos d d_lo).
  apply scale_le; [exact d_lo|].
  eapply Qle_trans; [apply sumn_abs|].
  apply sumn_le. intros j _. rewrite Qabs_Qmult, (Qabs_pos _ (m_nonneg i j)).
  unfold mixed, delta. destruct (j <? i)%nat; apply Qle_refl.
Qed.

(** Column [j] of the double sum, split at the diagonal. *)
Lemma column_split (a b : nat -> Q) (j : nat) :
  sumn N (fun i => m i j * mixed i a b j)
  == a j * below N m j + b j * upper N m j.
Proof.
  unfold below, upper. rewrite <- !sumn_scal, <- sumn_plus.
  apply sumn_ext. intros i _. unfold mixed. destruct (j <? i)%nat; ring.
Qed.

Theorem sweep_contracts (X Y Z : nat -> Q) :
  sweeps N m c d X Y -> sweeps N m c d Y Z ->
  weighted N m d (delta Y Z) <= d * weighted N m d (delta X Y).
Proof.
  intros HXY HYZ.
  set (a := delta Y Z). set (b := delta X Y).
  assert (Ha : forall j, 0 <= a j) by (intros; apply delta_nonneg).
  assert (Hb : forall j, 0 <= b j) by (intros; apply delta_nonneg).
  assert (H1 : sumn N a
               <= d * sumn N (fun j => a j * below N m j + b j * upper N m j)).
  { eapply Qle_trans.
    - apply sumn_le. intros i Hi. apply (delta_step X Y Z HXY HYZ i Hi).
    - fold a b. rewrite sumn_scal, sumn_exchange.
      apply scale_le; [exact d_lo|].
      rewrite (sumn_ext N _ _ (fun j _ => column_split a b j)). apply Qle_refl. }
  assert (H2 : sumn N (fun j => b j * upper N m j)
               <= sumn N (fun j => b j * (1 - d * below N m j))).
  { apply sumn_le. intros j Hj. apply scale_le; [apply Hb|].
    apply (weight_bounds j Hj). }
  unfold weighted.
  assert (E : sumn N (fun j => a j * (1 - d * below N m j))
              == sumn N a - d * sumn N (fun j => a j * below N m j)).
  { rewrite <- sumn_scal, <- sumn_minus. apply sumn_ext. intros; ring. }
  rewrite sumn_plus in H1. rewrite E.
  assert (0 <= d * (sumn N (fun j => b j * (1 - d * below N m j))
                    - sumn N (fun j => b j * upper N m j))) by nra.
  lra.
Qed.

(** With [d < 1] every single change is bounded by the weighted sum. *)
Lemma weighted_bounds (v : nat -> Q) (j : nat) :
  (forall i, 0 <= v i) -> (j < N)%nat -> v j * (1 - d) <= weighted N m d v.
Proof.
  intros Hv Hj. unfold weighted.
  assert (Hw : forall i, (i < N)%nat -> v i * (1 - d) <= v i * (1 - d * below N m i)).
  { intros i Hi. apply scale_le; [apply Hv|]. apply (weight_bounds i Hi). }
  eapply Qle_trans; [apply (Hw j Hj)|].
  apply (sumn_term_le N (fun j => v j * (1 - d * below N m j))); [|exact Hj].
  intros i Hi. pose proof (Hw i Hi). pose proof (Hv i).
  assert (0 <= v i * (1 - d)) by nra. lra.
Qed.

Lemma weighted_nonneg (v : nat -> Q) : (forall i, 0 <= v i) -> 0 <= weighted N m d v.
Proof.
  intros Hv. apply sumn_nonneg. intros i Hi.
  pose proof (weight_bounds i Hi) as [_ Hu]. pose proof (upper_nonneg i).
  pose proof (Hv i). nra.
Qed.

End GaussSeidel.

(** ** The pass of [iterate_pagerank] *)

Lemma get_app_fresh {V} (done rest : dict V) k :
  ~ In k (keys done) -> get (done ++ rest) k = get rest k.
Proof.
  induction done as [|[k' v'] done IH]; simpl; [reflexivity|].
  intros Hn. destruct (String.eqb_spec k k') as [->|Hne].
  - exfalso. apply Hn. now left.
  - apply IH. intros Hin. apply Hn. now right.
Qed.

Lemma set_app_fresh {V} (done rest : dict V) k v :
  ~ In k (keys done) -> set (done ++ rest) k v = done ++ set rest k v.
Proof.
  induction done as [|[k' v'] done IH]; simpl; [reflexivity|].
  intros Hn. destruct (String.eqb_spec k k') as [->|Hne].
  - exfalso. apply Hn. now left.
  - f_equal. apply IH. intros Hin. apply Hn. now right.
Qed.

Lemma keys_app {V} (a b : dict V) : keys (a ++ b) = keys a ++ keys b.
Proof. apply map_app. Qed.

Lemma mem_effective_nonempty (corpus : Corpus) page links :
  mem page (effective_links corpus links) = true ->
  effective_links corpus links <> [].
Proof.
  intros H E. rewrite E in H. discriminate.
Qed.

Lemma foldM_cons {A B} (f : A -> B -> result A) x xs a :
  foldM f (x :: xs) a = bind (f a x) (fun a' => foldM f xs a').
Proof. reflexivity. Qed.

Lemma add_share_eq (corpus : Corpus) (r : dict Q) page acc q ls :
  add_share corpus r page acc (q, ls)
  = if mem page (effective_links corpus ls)
    then x <- get r q ;;
         share <- pydiv x (len (effective_links corpus ls)) ;;
         Ok (acc + share)
    else Ok acc.
Proof. reflexivity. Qed.

(** The inner loop over [corpus.items()]: it adds up the shares. *)
Lemma foldM_add_share (corpus : Corpus) (r : dict Q) page :
  forall (items : Corpus) (acc : Q),
    (forall q ls, In (q, ls) items -> In q (keys r)) ->
    exists v,
      foldM (add_share corpus r page) items acc = Ok v /\
      v == acc + sum (map (fun item => weight corpus page (snd item)
                                        * val r (fst item)) items).
Proof.
  induction items as [|[q ls] items IH]; intros acc Hin.
  - exists acc. split; [reflexivity | simpl; lra].
  - rewrite foldM_cons, add_share_eq.
    assert (Hrest : forall q' ls', In (q', ls') items -> In q' (keys r))
      by (intros; eapply Hin; right; eauto).
    simpl map. simpl sum. unfold weight at 1. simpl snd. simpl fst.
    destruct (mem page (effective_links corpus ls)) eqn:E.
    + destruct (get_present r q) as [x Hx]; [eapply Hin; left; eauto|].
      destruct (IH (acc + x / len (effective_links corpus ls)) Hrest)
        as (v & Hv & Hsum).
      exists v. split.
      * rewrite Hx, bind_ret.
        rewrite pydiv_len, !bind_ret by now apply (mem_effective_nonempty _ page).
        exact Hv.
      * assert (Hval : val r q = x) by (unfold val; now rewrite Hx).
        rewrite Hsum, Hval. field.
        pose proof (len_pos _ (mem_effective_nonempty _ _ _ E)). lra.
    + destruct (IH acc Hrest) as (v & Hv & Hsum).
      exists v. split; [now rewrite bind_ret|]. rewrite Hsum. lra.
Qed.

(** The new rank of a page is always defined, and it is the PageRank formula
    on the ranks that the dictionary holds. *)
Lemma new_rank_value (corpus : Corpus) (d : Q) (r : dict Q) page :
  corpus <> [] -> incl (keys corpus) (keys r) ->
  exists v,
    new_rank corpus d r page = Ok v /\
    v == (1 - d) / len corpus
         + d * sum (map (fun item => weight corpus page (snd item)
                                     * val r (fst item)) corpus).
Proof.
  intros Hne Hincl.
  destruct (foldM_add_share corpus r page corpus 0) as (s & Hs & Hsum).
  { intros q ls Hin. apply Hincl. eapply In_keys; eauto. }
  exists ((1 - d) / len corpus + d * s). split.
  - unfold new_rank. now rewrite Hs, bind_ret, (pydiv_len _ corpus Hne), bind_ret.
  - rewrite Hsum. ring.
Qed.

Lemma pass_swept (corpus : Corpus) (d : Q) :
  NoDup (keys corpus) ->
  forall (todo done : dict Q) (ctodo cdone : dict change),
    keys (done ++ todo) = keys corpus ->
    keys cdone = keys done -> keys ctodo = keys todo ->
    exists new ch,
      foldM (update_page corpus d) (keys todo) (done ++ todo, cdone ++ ctodo)
      = Ok (done ++ new, cdone ++ ch) /\
      swept corpus d done todo new ch.
Proof.
  intros Hks. induction todo as [|[p x] todo IH]; intros done ctodo cdone Hk Hcd Hct.
  - destruct ctodo; [|discriminate]. exists [], []. split; constructor.
  - destruct ctodo as [|[p' c] ctodo]; [discriminate|].
    simpl in Hct. injection Hct as -> Hct.
    assert (Hfresh : ~ In p (keys done)).
    { rewrite <- Hk, keys_app in Hks. simpl in Hks.
      apply NoDup_remove_2 in Hks. intros Hin. apply Hks.
      apply in_or_app. now left. }
    destruct (new_rank_value corpus d (done ++ (p, x) :: todo) p) as (v & Hv & _).
    { intros ->. rewrite keys_app in Hk. destruct done; discriminate. }
    { rewrite Hk. apply incl_refl. }
    destruct (IH (done ++ [(p, v)]) ctodo (cdone ++ [(p, Fin (Qabs (v - x)))]))
      as (new & ch & Hfold & Hsw).
    { rewrite <- Hk, <- app_assoc, !keys_app. reflexivity. }
    { rewrite !keys_app, Hcd. reflexivity. }
    { exact Hct. }
    exists ((p, v) :: new), ((p, Fin (Qabs (v - x))) :: ch). split.
    + simpl keys. rewrite foldM_cons. unfold update_page at 1.
      rewrite Hv, bind_ret.
      rewrite (get_app_fresh done _ p Hfresh). simpl get.
      rewrite String.eqb_refl, bind_ret, bind_ret.
      rewrite (set_app_fresh done _ p _ Hfresh).
      rewrite (set_app_fresh cdone _ p) by now rewrite Hcd.
      simpl set. rewrite String.eqb_refl.
      rewrite <- !app_assoc in Hfold. exact Hfold.
    + constructor; assumption.
Qed.

Lemma swept_keys (corpus : Corpus) d done todo new ch :
  swept corpus d done todo new ch -> keys new = keys todo /\ keys ch = keys todo.
Proof.
  induction 1 as [|done p x v todo new ch Hv Hsw [IH1 IH2]]; [now split|].
  simpl. now rewrite IH1, IH2.
Qed.

(** Entry by entry: the new rank at position [i] is computed from the
    dictionary in which the [i] entries before it are already new. *)
Lemma swept_nth (corpus : Corpus) d done todo new ch :
  swept corpus d done todo new ch ->
  forall i p x, nth_error todo i = Some (p, x) ->
    exists v,
      nth_error new i = Some (p, v) /\
      new_rank corpus d (done ++ firstn i new ++ skipn i todo) p = Ok v /\
      nth_error ch i = Some (p, Fin (Qabs (v - x))).
Proof.
  induction 1 as [|done p x v todo new ch Hv Hsw IH]; intros i q y Hi.
  - destruct i; discriminate.
  - destruct i as [|i]; simpl in Hi.
    + injection Hi as <- <-. exists v. repeat split. exact Hv.
    + destruct (IH i q y Hi) as (w & Hw & Hnew & Hch).
      exists w. repeat split; auto.
      simpl. rewrite <- app_assoc in Hnew. exact Hnew.
Qed.

(** One pass never fails on a rank dictionary over the pages of the corpus. *)
Lemma iterate_pass_swept (corpus : Corpus) d (rank : dict Q) (changes : dict change) :
  NoDup (keys corpus) -> keys rank = keys corpus -> keys changes = keys corpus ->
  exists rank' changes',
    iterate_pass corpus d (rank, changes) = Ok (rank', changes') /\
    swept corpus d [] rank rank' changes'.
Proof.
  intros Hks Hr Hc.
  destruct (pass_swept corpus d Hks rank [] changes []) as (new & ch & Hfold & Hsw);
    auto; [now rewrite Hc|].
  exists new, ch. split; [exact Hfold | exact Hsw].
Qed.

(** ** From dictionaries to positions *)

Lemma sum_map_sumn {A} (g : A -> Q) (l : list A) (dflt : A) :
  sum (map g l) == sumn (length l) (fun j => g (nth j l dflt)).
Proof.
  induction l as [|x l IH] using rev_ind; [reflexivity|].
  rewrite map_app, sum_app, length_app, Nat.add_comm. simpl.
  rewrite IH, nth_middle.
  rewrite (sumn_ext (length l) (fun j => g (nth j (l ++ [x]) dflt))
             (fun j => g (nth j l dflt))).
  - lra.
  - intros i Hi. now rewrite app_nth1.
Qed.

Lemma val_nth (r : dict Q) (j : nat) :
  NoDup (keys r) -> (j < length r)%nat ->
  val r (nth j (keys r) EmptyString) = vec r j.
Proof.
  intros Hnd Hj. unfold val, vec, keys, values.
  rewrite (nth_indep _ EmptyString (fst (EmptyString, 0))) by now rewrite length_map.
  rewrite (nth_indep _ 0 (snd (EmptyString, 0))) by now rewrite length_map.
  rewrite !map_nth.
  rewrite (In_get r _ (snd (nth j r (EmptyString, 0))) Hnd); [reflexivity|].
  rewrite <- surjective_pairing. now apply nth_In.
Qed.

Lemma keys_nth_fst {V} (d : dict V) (j : nat) (dflt : V) :
  nth j (keys d) EmptyString = fst (nth j d (EmptyString, dflt)).
Proof.
  unfold keys. change EmptyString with (fst (EmptyString, dflt)) at 1.
  apply map_nth.
Qed.

(** The new rank of the page at position [i], as a sum over positions. *)
Lemma new_rank_sumn (corpus : Corpus) d (r : dict Q) (i : nat) :
  NoDup (keys corpus) -> keys r = keys corpus -> corpus <> [] ->
  exists v,
    new_rank corpus d r (nth i (keys corpus) EmptyString) = Ok v /\
    v == (1 - d) / len corpus
         + d * sumn (length corpus) (fun j => share_matrix corpus i j * vec r j).
Proof.
  intros Hks Hr Hne.
  destruct (new_rank_value corpus d r (nth i (keys corpus) EmptyString) Hne)
    as (v & Hv & Hsum); [rewrite Hr; apply incl_refl|].
  exists v. split; [exact Hv|]. rewrite Hsum.
  rewrite (sum_map_sumn _ corpus (EmptyString, [])).
  apply Qplus_comp; [reflexivity|]. apply Qmult_comp; [reflexivity|].
  apply sumn_ext. intros j Hj. unfold share_matrix.
  rewrite <- (keys_nth_fst corpus j []), <- Hr, val_nth; [reflexivity | |].
  - now rewrite Hr.
  - now rewrite <- (length_keys r), Hr, length_keys.
Qed.

Lemma mixed_dict_keys (r r' : dict Q) (i : nat) :
  keys r' = keys r -> keys (firstn i r' ++ skipn i r) = keys r.
Proof.
  intros Hk. rewrite keys_app. unfold keys in *.
  now rewrite <- firstn_map, <- skipn_map, Hk, firstn_skipn.
Qed.

Lemma vec_mixed (r r' : dict Q) (i j : nat) :
  length r' = length r -> (i <= length r)%nat ->
  vec (firstn i r' ++ skipn i r) j = mixed i (vec r') (vec r) j.
Proof.
  intros Hlen Hi. unfold vec, mixed, values.
  rewrite map_app, <- firstn_map, <- skipn_map.
  assert (Hl : length (firstn i (map snd r')) = i).
  { apply firstn_length_le. rewrite length_map. lia. }
  destruct (Nat.ltb_spec j i) as [Hlt|Hge].
  - rewrite app_nth1 by lia. rewrite nth_firstn.
    destruct (Nat.ltb_spec j i); [reflexivity | lia].
  - rewrite app_nth2 by lia. rewrite Hl, nth_skipn. f_equal. lia.
Qed.

Lemma vec_nth_error (r : dict Q) (i : nat) p v :
  nth_error r i = Some (p, v) -> vec r i = v.
Proof.
  intros H. unfold vec, values.
  apply (nth_error_nth _ _ 0). now rewrite nth_error_map, H.
Qed.

(** A pass of the code is a sweep of the system of equations. *)
Lemma swept_sweeps (corpus : Corpus) d (r r' : dict Q) (ch : dict change) :
  NoDup (keys corpus) -> keys r = keys corpus ->
  swept corpus d [] r r' ch ->
  sweeps (length corpus) (share_matrix corpus) ((1 - d) / len corpus) d
    (vec r) (vec r').
Proof.
  intros Hks Hr Hsw i Hi.
  destruct (swept_keys _ _ _ _ _ _ Hsw) as [Hk' _].
  assert (Hlen : length r = length corpus)
    by now rewrite <- (length_keys r), Hr, length_keys.
  assert (Hlen' : length r' = length r)
    by now rewrite <- (length_keys r'), Hk', length_keys.
  assert (Hne : corpus <> []) by (intros ->; simpl in Hi; lia).
  pose (x := snd (nth i r (EmptyString, 0))).
  assert (Hnth : nth_error r i = Some (nth i (keys corpus) EmptyString, x)).
  { rewrite (nth_error_nth' r (EmptyString, 0)) by lia.
    rewrite <- Hr, (keys_nth_fst r i 0). unfold x.
    now rewrite <- surjective_pairing. }
  destruct (swept_nth _ _ _ _ _ _ Hsw i _ _ Hnth) as (v & Hv & Hnew & _).
  simpl app in Hnew.
  destruct (new_rank_sumn corpus d (firstn i r' ++ skipn i r) i Hks)
    as (w & Hw & Hsum); [now rewrite mixed_dict_keys | exact Hne |].
  rewrite Hnew in Hw. injection Hw as <-.
  rewrite (vec_nth_error r' i _ v Hv), Hsum.
  apply Qplus_comp; [reflexivity|]. apply Qmult_comp; [reflexivity|].
  apply sumn_ext. intros j _. rewrite vec_mixed by lia. reflexivity.
Qed.

(** The changes that a pass records are the changes of the ranks. *)
Lemma swept_changes (corpus : Corpus) d (r r' : dict Q) (ch : dict change) :
  swept corpus d [] r r' ch ->
  forall c, In c (values ch) ->
    exists j, (j < length r)%nat /\ c = Fin (delta (vec r) (vec r') j).
Proof.
  intros Hsw c Hc.
  destruct (swept_keys _ _ _ _ _ _ Hsw) as [_ Hkc].
  apply (In_nth _ _ Inf) in Hc. destruct Hc as (j & Hj & Hc).
  unfold values in Hj. rewrite length_map in Hj.
  assert (Hjr : (j < length r)%nat)
    by now rewrite <- (length_keys r), <- Hkc, length_keys.
  exists j. split; [exact Hjr|].
  pose proof (nth_error_nth' r (EmptyString, 0) Hjr) as Hnth.
  destruct (nth j r (EmptyString, 0)) as [p x] eqn:E.
  destruct (swept_nth _ _ _ _ _ _ Hsw j p x Hnth) as (v & Hv & _ & Hch).
  rewrite <- Hc. unfold values.
  rewrite (nth_error_nth _ _ Inf (x := Fin (Qabs (v - x))))
    by now rewrite nth_error_map, Hch.
  unfold delta. now rewrite (vec_nth_error _ _ _ _ Hv), (vec_nth_error _ _ _ _ Hnth).
Qed.

(** ** The matrix of shares *)

Lemma weight_nonneg (corpus : Corpus) page links : 0 <= weight corpus page links.
Proof.
  unfold weight. destruct (mem page _); [|lra].
  unfold Qdiv. rewrite Qmult_1_l. apply Qinv_le_0_compat, len_nonneg.
Qed.

Lemma share_matrix_nonneg (corpus : Corpus) i j : 0 <= share_matrix corpus i j.
Proof. apply weight_nonneg. Qed.

Lemma sum_indicator {A} (f : A -> bool) (b : Q) (xs : list A) :
  sum (map (fun x => if f x then b else 0) xs) == len (filter f xs) * b.
Proof.
  induction xs as [|x xs IH]; [reflexivity|].
  simpl map. simpl sum. simpl filter. rewrite IH.
  destruct (f x); [rewrite len_cons|]; lra.
Qed.

(** The pages a page is taken to link to are a set of pages of the corpus. *)
Lemma effective_links_set (corpus : Corpus) p links :
  link_graph corpus -> In (p, links) corpus ->
  effective_links corpus links <> [] /\
  NoDup (effective_links corpus links) /\
  incl (effective_links corpus links) (keys corpus).
Proof.
  intros [Hks Hnd Hcl _] Hin. destruct links as [|l links]; simpl.
  - repeat split; [|exact Hks | apply incl_refl].
    intros E. apply In_keys in Hin. rewrite E in Hin. contradiction.
  - repeat split; [discriminate | eauto |]. intros q Hq. eauto.
Qed.

(** Every page hands out the whole of its rank. *)
Lemma share_matrix_column (corpus : Corpus) (j : nat) :
  link_graph corpus -> (j < length corpus)%nat ->
  sumn (length corpus) (fun i => share_matrix corpus i j) == 1.
Proof.
  intros Hg Hj. unfold share_matrix.
  set (links := snd (nth j corpus (EmptyString, []))).
  assert (Hin : In (fst (nth j corpus (EmptyString, [])), links) corpus).
  { unfold links. rewrite <- surjective_pairing. now apply nth_In. }
  destruct (effective_links_set corpus _ links Hg Hin) as (Hne & Hnd & Hincl).
  rewrite <- (length_keys corpus).
  rewrite <- (sum_map_sumn (fun p => weight corpus p links) (keys corpus) EmptyString).
  unfold weight. rewrite (sum_indicator (fun p => mem p (effective_links corpus links))).
  assert (HL : len (filter (fun p => mem p (effective_links corpus links)) (keys corpus))
               == len (effective_links corpus links)).
  { unfold len. rewrite filter_mem_length; auto. reflexivity. apply (keys_unique _ Hg). }
  rewrite HL. pose proof (len_pos _ Hne). field. lra.
Qed.

(** ** Powers of the damping factor *)

Lemma qpow_nonneg (d : Q) (k : nat) : 0 <= d -> 0 <= qpow d k.
Proof.
  intros Hd. induction k as [|k IH]; simpl; [lra|].
  now apply Qmult_le_0_compat.
Qed.

Lemma qpow_bernoulli (d : Q) (k : nat) :
  0 <= d -> d <= 1 -> qpow d k * (1 + inject_Z (Z.of_nat k) * (1 - d)) <= 1.
Proof.
  intros Hlo Hhi. induction k as [|k IH].
  - change (1 * (1 + 0 * (1 - d)) <= 1). lra.
  - rewrite Nat2Z.inj_succ. unfold Z.succ. rewrite inject_Z_plus.
    change (inject_Z 1) with 1. simpl qpow.
    pose proof (qpow_nonneg d k Hlo) as Hq.
    assert (Hk : 0 <= inject_Z (Z.of_nat k)).
    { change 0 with (inject_Z 0). rewrite <- Zle_Qle. lia. }
    set (n := inject_Z (Z.of_nat k)) in *. set (q := qpow d k) in *.
    assert (Hsq : 0 <= (1 - d) * (1 - d)) by nra.
    assert (Hnsq : 0 <= n * ((1 - d) * (1 - d))) by now apply Qmult_le_0_compat.
    assert (H1 : d * (1 + (n + 1) * (1 - d)) <= 1 + n * (1 - d)).
    { setoid_replace (d * (1 + (n + 1) * (1 - d)))
        with (1 + n * (1 - d) - (n * ((1 - d) * (1 - d)) + (1 - d) * (1 - d)))
        by ring. lra. }
    assert (H2 : q * (d * (1 + (n + 1) * (1 - d))) <= q * (1 + n * (1 - d)))
      by (apply scale_le; assumption).
    lra.
Qed.

(** A geometric sequence of ratio below one gets under any positive bound. *)
Lemma geometric_small (d W e : Q) :
  0 <= d -> d < 1 -> 0 <= W -> 0 < e -> exists k, W * qpow d k <= e.
Proof.
  intros Hlo Hhi HW He.
  destruct (Qarchimedean (W / (e * (1 - d)))) as [p Hp].
  exists (Pos.to_nat p).
  pose proof (qpow_bernoulli d (Pos.to_nat p) Hlo (Qlt_le_weak _ _ Hhi)) as Hb.
  pose proof (qpow_nonneg d (Pos.to_nat p) Hlo) as Hq.
  rewrite positive_nat_Z in Hb.
  change (inject_Z (Z.pos p)) with (Z.pos p # 1) in Hb.
  set (n := Z.pos p # 1) in *. set (q := qpow d (Pos.to_nat p)) in *.
  assert (Hh : 0 < e * (1 - d)) by nra.
  assert (HWn : W <= n * (e * (1 - d))).
  { apply Qlt_le_weak. apply (Qmult_lt_r _ _ _ Hh) in Hp.
    assert (E : W / (e * (1 - d)) * (e * (1 - d)) == W) by (field; lra).
    rewrite E in Hp. exact Hp. }
  assert (Hn : 0 <= n) by (unfold n; apply Qle_bool_iff; reflexivity).
  assert (H1 : W * q <= (e * (1 + n * (1 - d))) * q).
  { rewrite !(Qmult_comm _ q). apply scale_le; [exact Hq | nra]. }
  assert (H2 : e * (q * (1 + n * (1 - d))) <= e * 1)
    by (apply scale_le; [lra | exact Hb]).
  lra.
Qed.

(** ** The [while] loop of [iterate_pagerank] *)

Lemma iterate_loop_stop (fuel : nat) (corpus : Corpus) d st :
  any_exceeds (snd st) = false -> iterate_loop fuel corpus d st = Some (Ok (fst st)).
Proof.
  intros H. destruct fuel; simpl; now rewrite H.
Qed.

Lemma iterate_loop_pass (fuel : nat) (corpus : Corpus) d st st' :
  any_exceeds (snd st) = true -> iterate_pass corpus d st = Ok st' ->
  iterate_loop (S fuel) corpus d st = iterate_loop fuel corpus d st'.
Proof.
  intros H Hp. simpl. now rewrite H, Hp.
Qed.

Lemma any_exceeds_false (changes : dict change) :
  (forall c, In c (values changes) -> exists q, c = Fin q /\ q <= threshold) ->
  any_exceeds changes = false.
Proof.
  intros H. unfold any_exceeds. destruct (existsb exceeds (values changes)) eqn:E;
    [|reflexivity].
  apply existsb_exists in E. destruct E as (c & Hin & Hex).
  destruct (H c Hin) as (q & -> & Hq). simpl in Hex.
  apply Qle_bool_iff in Hq. rewrite Hq in Hex. discriminate.
Qed.

Section Convergence.
Variables (corpus : Corpus) (d : Q).
Hypothesis graph : link_graph corpus.
Hypothesis d_lo : 0 <= d.
Hypothesis d_hi : d < 1.

Let N := length corpus.
Let M := share_matrix corpus.

Lemma M_column (j : nat) : (j < N)%nat -> sumn N (fun i => M i j) <= 1.
Proof.
  intros Hj. unfold M, N. rewrite share_matrix_column by assumption. apply Qle_refl.
Qed.

(** The weighted change after a pass is at most [d] times the one before. *)
Lemma pass_contracts (r0 r r' : dict Q) (ch ch' : dict change) :
  keys r0 = keys corpus ->
  swept corpus d [] r0 r ch -> swept corpus d [] r r' ch' ->
  weighted N M d (delta (vec r) (vec r'))
  <= d * weighted N M d (delta (vec r0) (vec r)).
Proof.
  intros Hk0 Hsw Hsw'.
  destruct (swept_keys _ _ _ _ _ _ Hsw) as [Hk _].
  apply (sweep_contracts N M ((1 - d) / len corpus) d
           (share_matrix_nonneg corpus) M_column d_lo (Qlt_le_weak _ _ d_hi)).
  - apply swept_sweeps with ch; [apply (keys_unique _ graph) | exact Hk0 | exact Hsw].
  - apply swept_sweeps with ch';
      [apply (keys_unique _ graph) | now rewrite Hk | exact Hsw'].
Qed.

(** Once the weighted change is small, every change is below the threshold. *)
Lemma small_changes (r0 r : dict Q) (ch : dict change) :
  keys r0 = keys corpus -> swept corpus d [] r0 r ch ->
  weighted N M d (delta (vec r0) (vec r)) <= threshold * (1 - d) ->
  any_exceeds ch = false.
Proof.
  intros Hk0 Hsw HW. apply any_exceeds_false. intros c Hc.
  destruct (swept_changes _ _ _ _ _ Hsw c Hc) as (j & Hj & ->).
  exists (delta (vec r0) (vec r) j). split; [reflexivity|].
  assert (HjN : (j < N)%nat)
    by (unfold N; now rewrite <- (length_keys r0), Hk0, length_keys in Hj).
  pose proof (weighted_bounds N M d (share_matrix_nonneg corpus) M_column d_lo
                (Qlt_le_weak _ _ d_hi) (delta (vec r0) (vec r)) j
                (delta_nonneg _ _) HjN) as Hb.
  assert (Hle : delta (vec r0) (vec r) j * (1 - d) <= threshold * (1 - d)) by lra.
  apply Qmult_le_r in Hle; [exact Hle | lra].
Qed.

(** The loop stops within [k] passes once [d ** k] times the weighted change
    is below the threshold, and it stops after a pass in which no change
    exceeds the threshold. *)
Lemma loop_converges (k : nat) :
  forall (r0 r : dict Q) (c0 ch : dict change),
    keys r0 = keys corpus ->
    iterate_pass corpus d (r0, c0) = Ok (r, ch) ->
    swept corpus d [] r0 r ch ->
    weighted N M d (delta (vec r0) (vec r)) * qpow d k <= threshold * (1 - d) ->
    exists prev prev_changes result changes,
      iterate_loop k corpus d (r, ch) = Some (Ok result) /\
      iterate_pass corpus d (prev, prev_changes) = Ok (result, changes) /\
      any_exceeds changes = false.
Proof.
  induction k as [|k IH]; intros r0 r c0 ch Hk0 Hp Hsw HW.
  - simpl qpow in HW. rewrite Qmult_1_r in HW.
    pose proof (small_changes r0 r ch Hk0 Hsw HW) as Hsmall.
    exists r0, c0, r, ch. repeat split; auto. now apply iterate_loop_stop.
  - destruct (any_exceeds ch) eqn:E.
    + destruct (swept_keys _ _ _ _ _ _ Hsw) as [Hk Hkc].
      destruct (iterate_pass_swept corpus d r ch) as (r' & ch' & Hpass & Hsw');
        [apply (keys_unique _ graph) | now rewrite Hk | now rewrite Hkc |].
      rewrite (iterate_loop_pass k corpus d (r, ch) (r', ch') E Hpass).
      apply (IH r r' ch ch'); [now rewrite Hk | exact Hpass | exact Hsw' |].
      pose proof (pass_contracts r0 r r' ch ch' Hk0 Hsw Hsw') as Hc.
      pose proof (qpow_nonneg d k d_lo) as Hq.
      simpl qpow in HW.
      assert (H1 : weighted N M d (delta (vec r) (vec r')) * qpow d k
                   <= d * weighted N M d (delta (vec r0) (vec r)) * qpow d k).
      { rewrite !(Qmult_comm _ (qpow d k)). now apply scale_le. }
      lra.
    + exists r0, c0, r, ch. repeat split; auto. now apply iterate_loop_stop.
Qed.

End Convergence.

(** The first state of the loop. *)
Lemma iterate_init_Ok (corpus : Corpus) :
  NoDup (keys corpus) -> corpus <> [] ->
  iterate_init corpus
  = Ok (map (fun k => (k, 1 / len corpus)) (keys corpus),
        map (fun k => (k, Inf)) (keys corpus)).
Proof.
  intros Hks Hne. unfold iterate_init.
  rewrite (pydiv_len _ corpus Hne), bind_ret, <- (length_keys corpus).
  now rewrite !dict_zip_repeat.
Qed.

(** Below a damping factor of one the loop stops, after a pass in which no
    change exceeds the threshold. *)
Lemma iterate_pagerank_stops (corpus : Corpus) (d : Q) :
  link_graph corpus -> corpus <> [] -> 0 <= d -> d < 1 ->
  exists fuel prev prev_changes result changes,
    iterate_pagerank fuel corpus d = Some (Ok result) /\
    iterate_pass corpus d (prev, prev_changes) = Ok (result, changes) /\
    any_exceeds changes = false.
Proof.
  intros Hg Hne Hlo Hhi. pose proof (keys_unique _ Hg) as Hks.
  set (r0 := map (fun k => (k, 1 / len corpus)) (keys corpus)).
  set (c0 := map (fun k : Page => (k, Inf)) (keys corpus)).
  assert (Hk0 : keys r0 = keys corpus) by apply keys_tabulate.
  assert (Hkc : keys c0 = keys corpus) by apply keys_tabulate.
  assert (E0 : any_exceeds c0 = true).
  { unfold any_exceeds, c0. rewrite values_tabulate.
    destruct corpus; [congruence | reflexivity]. }
  destruct (iterate_pass_swept corpus d r0 c0 Hks Hk0 Hkc) as (r1 & c1 & Hpass & Hsw).
  set (W := weighted (length corpus) (share_matrix corpus) d (delta (vec r0) (vec r1))).
  assert (HW : 0 <= W).
  { apply weighted_nonneg; try assumption; try lra.
    - apply share_matrix_nonneg.
    - intros j Hj. rewrite share_matrix_column by assumption. apply Qle_refl.
    - intros. apply delta_nonneg. }
  destruct (geometric_small d W (threshold * (1 - d)) Hlo Hhi HW) as [k Hk].
  { unfold threshold. nra. }
  destruct (loop_converges corpus d Hg Hlo Hhi k r0 r1 c0 c1 Hk0 Hpass Hsw Hk)
    as (prev & pc & result & changes & Hloop & Hlast & Hsmall).
  exists (S k), prev, pc, result, changes. repeat split; auto.
  unfold iterate_pagerank. rewrite (iterate_init_Ok corpus Hks Hne).
  fold r0 c0. now rewrite (iterate_loop_pass k corpus d (r0, c0) (r1, c1) E0 Hpass).
Qed.

Lemma any_exceeds_small (changes : dict change) :
  any_exceeds changes = false ->
  forall p c, In (p, c) changes -> exists q, c = Fin q /\ q <= threshold.
Proof.
  unfold any_exceeds. intros E p c Hin.
  assert (Hc : exceeds c = false).
  { destruct (exceeds c) eqn:Ec; [|reflexivity].
    assert (existsb exceeds (values changes) = true); [|congruence].
    apply existsb_exists. exists c. split; [|exact Ec].
    change c with (snd (p, c)). now apply in_map. }
  destruct c as [|q]; [discriminate|]. exists q. split; [reflexivity|].
  simpl in Hc. apply negb_false_iff in Hc. now apply Qle_bool_iff.
Qed.

(** ** A corpus on which the loop never stops when the damping factor is one *)

Lemma swept_change_at (corpus : Corpus) d (r r' : dict Q) (ch : dict change) j :
  swept corpus d [] r r' ch -> (j < length r)%nat ->
  In (Fin (delta (vec r) (vec r') j)) (values ch).
Proof.
  intros Hsw Hj.
  pose proof (nth_error_nth' r (EmptyString, 0) Hj) as Hnth.
  destruct (nth j r (EmptyString, 0)) as [p x].
  destruct (swept_nth _ _ _ _ _ _ Hsw j p x Hnth) as (v & Hv & _ & Hch).
  unfold delta. rewrite (vec_nth_error _ _ _ _ Hv), (vec_nth_error _ _ _ _ Hnth).
  apply nth_error_In in Hch.
  change (Fin (Qabs (v - x))) with (snd (p, Fin (Qabs (v - x)))). now apply in_map.
Qed.

Lemma exceeds_large (q : Q) : threshold < q -> exceeds (Fin q) = true.
Proof.
  intros H. simpl. destruct (Qle_bool q threshold) eqn:E; [|reflexivity].
  apply Qle_bool_iff in E. lra.
Qed.

Lemma any_exceeds_intro (changes : dict change) c :
  In c (values changes) -> exceeds c = true -> any_exceeds changes = true.
Proof.
  intros Hin Hc. unfold any_exceeds. apply existsb_exists. eauto.
Qed.

Ltac solve_nodup :=
  repeat (constructor; [simpl; intuition discriminate|]); constructor.

Ltac inspect_items H :=
  simpl in H;
  repeat (destruct H as [H|H]; [injection H as <- <-|]); [..|contradiction].

Lemma cycle_graph : link_graph cycle_corpus.
Proof.
  constructor.
  - solve_nodup.
  - intros p ls H. inspect_items H; solve_nodup.
  - intros p ls q H Hq. inspect_items H;
      (destruct Hq as [<-|[]]); simpl; tauto.
  - intros p ls H Hp. inspect_items H;
      (destruct Hp as [Hp|[]]); discriminate.
Qed.

Ltac eval_shares H :=
  repeat match type of H with
         | context [share_matrix cycle_corpus ?i ?j] =>
             let v := eval vm_compute in (share_matrix cycle_corpus i j) in
             change (share_matrix cycle_corpus i j) with v in H
         end.

(** A pass on [cycle_corpus] with a damping factor of one, by position. *)
Lemma cycle_sweep (X Y : nat -> Q) :
  sweeps 4 (share_matrix cycle_corpus) ((1 - 1) / len cycle_corpus) 1 X Y ->
  Y 0%nat == X 1%nat /\ Y 1%nat == X 2%nat + X 3%nat /\
  Y 2%nat == X 1%nat /\ Y 3%nat == 0.
Proof.
  intros H.
  assert (Hc : (1 - 1) / len cycle_corpus == 0) by reflexivity.
  pose proof (H 0%nat ltac:(lia)) as H0. pose proof (H 1%nat ltac:(lia)) as H1.
  pose proof (H 2%nat ltac:(lia)) as H2. pose proof (H 3%nat ltac:(lia)) as H3.
  rewrite Hc in H0, H1, H2, H3.
  unfold sumn, mixed in H0, H1, H2, H3.
  cbv [Nat.ltb Nat.leb] in H0, H1, H2, H3.
  eval_shares H0. eval_shares H1. eval_shares H2. eval_shares H3.
  repeat split; lra.
Qed.

Lemma cycle_pass (st : dict Q * dict change) :
  oscillates st ->
  exists st', iterate_pass cycle_corpus 1 st = Ok st' /\ oscillates st'.
Proof.
  destruct st as [r ch]. intros (Hk & Hkc & _ & Hosc). simpl in Hk, Hkc, Hosc.
  pose proof (keys_unique _ cycle_graph) as Hks.
  destruct (iterate_pass_swept cycle_corpus 1 r ch Hks Hk Hkc)
    as (r' & ch' & Hpass & Hsw).
  destruct (swept_keys _ _ _ _ _ _ Hsw) as [Hk' Hkc'].
  pose proof (swept_sweeps cycle_corpus 1 r r' ch' Hks Hk Hsw) as Heq.
  apply cycle_sweep in Heq. destruct Heq as (_ & E1 & E2 & E3).
  exists (r', ch'). split; [exact Hpass|].
  unfold oscillates. cbn [fst snd]. repeat split.
  - now rewrite Hk'.
  - now rewrite Hkc'.
  - apply (any_exceeds_intro ch' (Fin (delta (vec r) (vec r') 1))).
    + apply (swept_change_at _ _ _ _ _ _ Hsw).
      rewrite <- (length_keys r), Hk. simpl. lia.
    + apply exceeds_large. unfold delta. rewrite E1, Hosc. reflexivity.
  - rewrite E1, E2, E3.
    setoid_replace (vec r 1 + 0 - (vec r 2 + vec r 3))
      with (- (vec r 2 + vec r 3 - vec r 1)) by ring.
    now rewrite Qabs_opp.
Qed.

Lemma cycle_loop (fuel : nat) :
  forall st, oscillates st -> iterate_loop fuel cycle_corpus 1 st = None.
Proof.
  induction fuel as [|fuel IH]; intros st Hosc.
  - destruct Hosc as (_ & _ & E & _). simpl. now rewrite E.
  - destruct (cycle_pass st Hosc) as (st' & Hpass & Hosc').
    destruct Hosc as (_ & _ & E & _).
    rewrite (iterate_loop_pass fuel _ _ st st' E Hpass). now apply IH.
Qed.

Lemma cycle_never_stops (fuel : nat) : iterate_pagerank fuel cycle_corpus 1 = None.
Proof.
  unfold iterate_pagerank.
  rewrite (iterate_init_Ok cycle_corpus (keys_unique _ cycle_graph)) by discriminate.
  apply cycle_loop. repeat split; reflexivity.
Qed.

(** ** The sample corpora are link graphs *)

Lemma two_pages_graph : link_graph two_pages.
Proof.
  constructor.
  - solve_nodup.
  - intros p ls H. inspect_items H; solve_nodup.
  - intros p ls q H Hq. inspect_items H;
      (destruct Hq as [<-|[]]); simpl; tauto.
  - intros p ls H Hp. inspect_items H;
      (destruct Hp as [Hp|[]]); discriminate.
Qed.

Lemma sink_graph : link_graph sink_corpus.
Proof.
  constructor.
  - solve_nodup.
  - intros p ls H. inspect_items H; solve_nodup.
  - intros p ls q H Hq. inspect_items H; [destruct Hq|].
    destruct Hq as [<-|[]]; simpl; tauto.
  - intros p ls H Hp. inspect_items H; [destruct Hp|].
    destruct Hp as [Hp|[]]; discriminate.
Qed.

(** ** The lookups of the link loop *)

Lemma foldM_add_link_safe (bonus : Q) (links : list Page) :
  forall d : dict Q, incl links (keys d) ->
    exists d', foldM (add_link bonus) links d = Ok d' /\ keys d' = keys d.
Proof.
  induction links as [|l links IH]; intros d Hincl.
  - exists d. now split.
  - assert (Hl : In l (keys d)) by (apply Hincl; now left).
    destruct (get_present d l Hl) as [x Hx].
    destruct (IH (set d l (x + bonus))) as (d' & Hd' & Hk).
    { rewrite keys_set by exact Hl. intros q Hq. apply Hincl. now right. }
    exists d'. split.
    + rewrite foldM_cons. unfold add_link at 1. now rewrite Hx, !bind_ret.
    + now rewrite Hk, keys_set.
Qed.

Lemma foldM_add_link_missing (bonus : Q) (links : list Page) :
  forall d : dict Q, (exists q, In q links /\ ~ In q (keys d)) ->
    foldM (add_link bonus) links d = Raise KeyError.
Proof.
  induction links as [|l links IH]; intros d (q & Hq & Hmiss); [contradiction|].
  rewrite foldM_cons. unfold add_link at 1.
  destruct (in_dec string_dec l (keys d)) as [Hl|Hl].
  - destruct (get_present d l Hl) as [x Hx]. rewrite Hx, !bind_ret.
    apply IH. exists q. rewrite keys_set by exact Hl. split; [|exact Hmiss].
    destruct Hq as [->|Hq]; [contradiction | exact Hq].
  - now rewrite (get_missing d l Hl).
Qed.

(** [transition_model] up to the loop over the links of the page. *)
Lemma transition_model_links (corpus : Corpus) page l links d :
  NoDup (keys corpus) -> get corpus page = Ok (l :: links) ->
  transition_model corpus page d
  = foldM (add_link (d / len (l :: links))) (l :: links)
      (map (fun k => (k, (1 - d) / len corpus)) (keys corpus)).
Proof.
  intros Hks Hget.
  assert (Hne : corpus <> []) by (intros ->; discriminate).
  unfold transition_model. rewrite Hget, bind_ret.
  rewrite (pydiv_len _ corpus Hne), bind_ret.
  rewrite pydiv_len, bind_ret by discriminate.
  now rewrite <- (length_keys corpus), dict_zip_repeat.
Qed.

(** ** The loop never raises *)

(** A property of the rank dictionary that every pass keeps holds of the
    result, and the loop never raises. *)
Lemma iterate_loop_invariant (corpus : Corpus) d (P : dict Q -> Prop) :
  NoDup (keys corpus) ->
  (forall r r' ch', keys r = keys corpus -> P r ->
     swept corpus d [] r r' ch' -> P r') ->
  forall fuel st,
    keys (fst st) = keys corpus -> keys (snd st) = keys corpus -> P (fst st) ->
    iterate_loop fuel corpus d st = None \/
    exists ranks,
      iterate_loop fuel corpus d st = Some (Ok ranks) /\
      keys ranks = keys corpus /\ P ranks.
Proof.
  intros Hks Hstep. induction fuel as [|fuel IH]; intros [r ch] Hr Hc HP;
    simpl in Hr, Hc, HP; simpl iterate_loop;
    destruct (any_exceeds ch) eqn:E; eauto.
  destruct (iterate_pass_swept corpus d r ch Hks Hr Hc) as (r' & ch' & Hpass & Hsw).
  rewrite Hpass. destruct (swept_keys _ _ _ _ _ _ Hsw) as [Hk' Hkc'].
  apply IH; simpl.
  - now rewrite Hk'.
  - now rewrite Hkc'.
  - now apply (Hstep r r' ch').
Qed.

Lemma iterate_pagerank_outcome (fuel : nat) (corpus : Corpus) d :
  NoDup (keys corpus) -> corpus <> [] ->
  iterate_pagerank fuel corpus d = None \/
  exists ranks,
    iterate_pagerank fuel corpus d = Some (Ok ranks) /\ keys ranks = keys corpus.
Proof.
  intros Hks Hne. unfold iterate_pagerank. rewrite (iterate_init_Ok corpus Hks Hne).
  destruct (iterate_loop_invariant corpus d (fun _ => True) Hks (fun _ _ _ _ _ _ => I)
              fuel (map (fun k => (k, 1 / len corpus)) (keys corpus),
                    map (fun k : Page => (k, Inf)) (keys corpus)))
    as [Hnone|(ranks & Hrun & Hk & _)];
    try apply keys_tabulate; auto.
  right. eauto.
Qed.

(** ** Double precision *)

Lemma page_name_inj (i j : nat) : page_name i = page_name j -> i = j.
Proof.
  unfold page_name. simpl. intros H. injection H as H.
  apply (f_equal NilEmpty.uint_of_string) in H. rewrite !NilEmpty.usu in H.
  injection H as H. apply (f_equal Nat.of_uint) in H.
  now rewrite !Unsigned.of_to in H.
Qed.

Lemma dangling_keys (n : nat) : keys (dangling n) = map page_name (seq 0 n).
Proof. apply keys_tabulate. Qed.

Lemma dangling_graph (n : nat) : link_graph (dangling n).
Proof.
  assert (Hin : forall p ls, In (p, ls) (dangling n) -> ls = []).
  { intros p ls H. apply in_map_iff in H. destruct H as (k & E & _).
    now inversion E. }
  split.
  - rewrite dangling_keys. apply NoDup_map_NoDup_ForallPairs; [|apply seq_NoDup].
    intros i j _ _. apply page_name_inj.
  - intros p ls H. rewrite (Hin _ _ H). constructor.
  - intros p ls q H Hq. rewrite (Hin _ _ H) in Hq. contradiction.
  - intros p ls H Hp. rewrite (Hin _ _ H) in Hp. contradiction.
Qed.

Lemma dangling_first (p : positive) :
  In (page_name 0) (keys (dangling (Pos.to_nat p))).
Proof.
  rewrite dangling_keys. apply in_map. apply in_seq. lia.
Qed.

Lemma forced_eq (s : float) (k : float -> float) : forced s k = k s.
Proof. unfold forced. now destruct (PrimFloat.is_nan s). Qed.

(** Adding [p] times the same double, from left to right. *)
Lemma total_repeat (u : float) (p : positive) :
  forall a, fold_left PrimFloat.add (repeat u (Pos.to_nat p)) a = add_times p u a.
Proof.
  induction p as [p IH|p IH|]; intros a; cbn [add_times].
  - rewrite !forced_eq, Pos2Nat.inj_xI.
    replace (S (2 * Pos.to_nat p)) with (Pos.to_nat p + (Pos.to_nat p + 1))%nat
      by lia.
    rewrite !repeat_app, !fold_left_app, !IH. reflexivity.
  - rewrite forced_eq, Pos2Nat.inj_xO.
    replace (2 * Pos.to_nat p)%nat with (Pos.to_nat p + Pos.to_nat p)%nat by lia.
    now rewrite repeat_app, fold_left_app, !IH.
  - reflexivity.
Qed.

(** [transition_model] in doubles, from a page without links. *)
Lemma doubles_uniform (corpus : Corpus) (page : Page) (d u : float) :
  NoDup (keys corpus) -> get corpus page = Ok [] ->
  Doubles.pydiv 1 (Doubles.len corpus) = Ok u ->
  Doubles.transition_model corpus page d = Ok (map (fun k => (k, u)) (keys corpus)).
Proof.
  intros Hks Hget Hu. unfold Doubles.transition_model.
  rewrite Hget, bind_ret. cbv iota. rewrite Hu, bind_ret.
  now rewrite <- (length_keys corpus), dict_zip_repeat.
Qed.

(** On [p] pages without links, the weights are [p] copies of [1 / p], and
    their total in doubles is [1 / p] added [p] times. *)
Lemma doubles_uniform_total (p : positive) (d u : float) :
  Doubles.pydiv 1 (of_uint63 (Uint63.of_Z (Z.pos p))) = Ok u ->
  exists dist,
    Doubles.transition_model (dangling (Pos.to_nat p)) (page_name 0) d = Ok dist /\
    keys dist = keys (dangling (Pos.to_nat p)) /\
    Doubles.total (values dist) = add_times p u 0%float.
Proof.
  intros Hu.
  pose proof (dangling_graph (Pos.to_nat p)) as Hg.
  pose proof (dangling_first p) as Hin.
  set (corpus := dangling (Pos.to_nat p)) in *.
  assert (Hlen : length corpus = Pos.to_nat p).
  { unfold corpus, dangling. now rewrite !length_map, length_seq. }
  exists (map (fun k => (k, u)) (keys corpus)). split; [|split].
  - apply doubles_uniform.
    + apply (keys_unique _ Hg).
    + unfold corpus in *. rewrite dangling_keys in Hin. unfold dangling.
      now apply (get_tabulate (fun _ => @nil Page)).
    + unfold Doubles.len. now rewrite Hlen, positive_nat_Z.
  - apply keys_tabulate.
  - rewrite (values_tabulate (fun _ => u)), map_const, length_keys, Hlen.
    unfold Doubles.total. apply total_repeat.
Qed.

Lemma doubles_loop_step (corpus : Corpus) (d : float)
  (st st' : dict float * dict float) :
  Doubles.any_exceeds (snd st) = true ->
  Doubles.iterate_pass corpus d st = Ok st' ->
  (forall fuel, Doubles.iterate_loop fuel corpus d st' = None) ->
  forall fuel, Doubles.iterate_loop fuel corpus d st = None.
Proof.
  intros E Hpass Hnext [|fuel]; cbn [Doubles.iterate_loop]; rewrite E;
    [reflexivity|].
  rewrite Hpass. apply Hnext.
Qed.

(** Two states that a pass exchanges, each with a change above the
    threshold: the loop never leaves them. *)
Lemma doubles_loop_cycle (corpus : Corpus) (d : float)
  (st st' : dict float * dict float) :
  Doubles.any_exceeds (snd st) = true -> Doubles.any_exceeds (snd st') = true ->
  Doubles.iterate_pass corpus d st = Ok st' ->
  Doubles.iterate_pass corpus d st' = Ok st ->
  forall fuel, Doubles.iterate_loop fuel corpus d st = None.
Proof.
  intros E E' Hpass Hpass' fuel.
  assert (H : Doubles.iterate_loop fuel corpus d st = None /\
              Doubles.iterate_loop fuel corpus d st' = None); [|tauto].
  induction fuel as [|fuel [IH IH']]; cbn [Doubles.iterate_loop]; rewrite E, E';
    [now split|].
  rewrite Hpass, Hpass'. now split.
Qed.

(** A run of the loop in doubles that, after two passes, falls into two
    states that the passes exchange. *)
Lemma doubles_never_stops (corpus : Corpus) (d : float) :
  (exists s0 s1 s2 s3,
     Doubles.iterate_init corpus = Ok s0 /\
     Doubles.iterate_pass corpus d s0 = Ok s1 /\
     Doubles.iterate_pass corpus d s1 = Ok s2 /\
     Doubles.iterate_pass corpus d s2 = Ok s3 /\
     Doubles.iterate_pass corpus d s3 = Ok s2 /\
     Doubles.any_exceeds (snd s0) = true /\
     Doubles.any_exceeds (snd s1) = true /\
     Doubles.any_exceeds (snd s2) = true /\
     Doubles.any_exceeds (snd s3) = true) ->
  forall fuel, Doubles.iterate_pagerank fuel corpus d = None.
Proof.
  intros (s0 & s1 & s2 & s3 & H0 & H1 & H2 & H3 & H4 & E0 & E1 & E2 & E3) fuel.
  unfold Doubles.iterate_pagerank. rewrite H0.
  apply (doubles_loop_step corpus d s0 s1 E0 H1).
  apply (doubles_loop_step corpus d s1 s2 E1 H2).
  apply (doubles_loop_cycle corpus d s2 s3 E2 E3 H3 H4).
Qed.

(** * The transition model *)

(** C5: on a link graph, from a page of the corpus that has a non-empty set of
    [L] links, [transition_model] gives probability [(1 - d) / N + d / L] to
    every linked page and [(1 - d) / N] to every other page of the corpus; from
    a page without links it gives [1 / N] to every page.  The bounds on the
    damping factor are not needed. *)
Theorem transition_model_probabilities (corpus : Corpus) page links d :
  link_graph corpus -> get corpus page = Ok links ->
  exists dist,
    transition_model corpus page d = Ok dist /\
    forall q, In q (keys corpus) ->
      (links <> [] -> In q links ->
       get dist q = Ok ((1 - d) / len corpus + d / len links)) /\
      (links <> [] -> ~ In q links -> get dist q = Ok ((1 - d) / len corpus)) /\
      (links = [] -> get dist q = Ok (1 / len corpus)).
Proof.
  intros Hg Hget. apply get_In in Hget.
  eexists. split; [apply (link_graph_closed corpus page links d Hg Hget)|].
  intros q Hq. rewrite (get_tabulate _ _ _ Hq).
  unfold transition_prob. destruct links as [|l links].
  - split; [|split]; intros; congruence.
  - split; [|split].
    + intros _ Hin. apply mem_In in Hin. now rewrite Hin.
    + intros _ Hin. apply mem_not_In in Hin. now rewrite Hin.
    + discriminate.
Qed.

Lemma transition_model_probabilities_witness :
  link_graph two_pages /\
  get two_pages "1.html"%string = Ok ["2.html"%string] /\
  exists dist,
    transition_model two_pages "1.html"%string (85 # 100) = Ok dist /\
    get dist "2.html"%string
    = Ok ((1 - (85 # 100)) / len two_pages + (85 # 100) / len ["2.html"%string]) /\
    get dist "1.html"%string = Ok ((1 - (85 # 100)) / len two_pages).
Proof.
  split; [exact two_pages_graph|]. split; [reflexivity|].
  destruct (transition_model_probabilities two_pages "1.html"%string
              ["2.html"%string] (85 # 100) two_pages_graph eq_refl)
    as (dist & Hdist & Hprob).
  exists dist. split; [exact Hdist|]. split.
  - apply (Hprob "2.html"%string); [simpl; tauto | discriminate | simpl; tauto].
  - apply (Hprob "1.html"%string); [simpl; tauto | discriminate |].
    simpl. intros [H|[]]. discriminate.
Defined.

(** C6, refuted for the sum in doubles: on a link graph of a hundred million
    pages without links, [transition_model] returns the weight [1 / N] for
    every page, and these weights, added in doubles from left to right,
    miss one by more than [1e-9]. *)
Lemma transition_model_sum_drifts :
  link_graph crowd /\ In (page_name 0) (keys crowd) /\
  (0 <=? 0.85)%float = true /\ (0.85 <=? 1)%float = true /\
  exists dist,
    Doubles.transition_model crowd (page_name 0) 0.85 = Ok dist /\
    keys dist = keys crowd /\
    (1e-9 <? PrimFloat.abs (Doubles.total (values dist) - 1))%float = true.
Proof.
  split; [apply dangling_graph|].
  split; [apply (dangling_first 100000000)|].
  split; [reflexivity|]. split; [reflexivity|].
  destruct (doubles_uniform_total 100000000 0.85 (1 / 100000000)%float eq_refl)
    as (dist & Hrun & Hk & Htot).
  exists dist. split; [exact Hrun|]. split; [exact Hk|].
  rewrite Htot. vm_compute. reflexivity.
Qed.

(** C6, amended: on a link graph, from a page of the corpus, the distribution
    returned by [transition_model] has exactly one entry per page of the
    corpus, in the order of the corpus, and its values add up to one in exact
    arithmetic. *)
Theorem transition_model_distribution (corpus : Corpus) page links d :
  link_graph corpus -> get corpus page = Ok links ->
  exists dist,
    transition_model corpus page d = Ok dist /\
    keys dist = keys corpus /\
    length dist = length corpus /\
    sum (values dist) == 1.
Proof.
  intros Hg Hget. apply get_In in Hget.
  assert (Hne : corpus <> []) by (intros ->; contradiction).
  eexists. split; [apply (link_graph_closed corpus page links d Hg Hget)|].
  split; [apply keys_tabulate|]. split.
  - now rewrite length_map, length_keys.
  - rewrite values_tabulate. destruct Hg as [Hks Hnd Hcl _].
    apply transition_prob_sum; eauto. intros q Hq. eauto.
Qed.

Lemma transition_model_distribution_witness :
  link_graph sink_corpus /\
  get sink_corpus "2.html"%string = Ok ["1.html"%string] /\
  exists dist,
    transition_model sink_corpus "2.html"%string (85 # 100) = Ok dist /\
    keys dist = keys sink_corpus /\
    length dist = length sink_corpus /\
    sum (values dist) == 1.
Proof.
  split; [exact sink_graph|]. split; [reflexivity|].
  exact (transition_model_distribution sink_corpus "2.html"%string
           ["1.html"%string] (85 # 100) sink_graph eq_refl).
Defined.

(** C8, refuted in doubles: with the damping factor [1e-20], which is above
    zero, the share [d / L] of a link is lost when it is added to
    [(1 - d) / N]: from [1.html], the linked page [2.html] and the page
    [1.html], which is not linked, both get [0.5]. *)
Lemma linked_pages_equally_likely :
  link_graph two_pages /\
  get two_pages "1.html"%string = Ok ["2.html"%string] /\
  (0 <? 1e-20)%float = true /\ (1e-20 <=? 1)%float = true /\
  Doubles.transition_model two_pages "1.html"%string 1e-20%float
  = Ok [("1.html"%string, 0.5%float); ("2.html"%string, 0.5%float)].
Proof.
  split; [exact two_pages_graph|]. split; [reflexivity|].
  split; [reflexivity|]. split; [reflexivity|].
  vm_compute. reflexivity.
Qed.

(** C8, amended: in exact arithmetic, on a link graph, from a page with a
    non-empty set of links and with a damping factor above zero, every linked
    page gets a strictly greater probability than every page of the corpus
    that is not linked. *)
Theorem linked_pages_more_likely (corpus : Corpus) page links d q r :
  link_graph corpus -> get corpus page = Ok links -> 0 < d ->
  In q links -> In r (keys corpus) -> ~ In r links ->
  exists dist pq pr,
    transition_model corpus page d = Ok dist /\
    get dist q = Ok pq /\ get dist r = Ok pr /\ pr < pq.
Proof.
  intros Hg Hget Hd Hq Hr Hnr. apply get_In in Hget.
  assert (Hqk : In q (keys corpus)) by (eapply (links_closed _ Hg); eauto).
  assert (Hne : links <> []) by (intros ->; contradiction).
  exists (map (fun k => (k, transition_prob corpus links d k)) (keys corpus)),
    (transition_prob corpus links d q), (transition_prob corpus links d r).
  split; [apply (link_graph_closed corpus page links d Hg Hget)|].
  split; [now apply get_tabulate|]. split; [now apply get_tabulate|].
  unfold transition_prob. destruct links as [|l links]; [congruence|].
  apply mem_In in Hq. apply mem_not_In in Hnr. rewrite Hq, Hnr.
  assert (HL : 0 < len (l :: links)) by now apply len_pos.
  assert (0 < d / len (l :: links)); [|lra].
  apply Qlt_shift_div_l; [exact HL | lra].
Qed.

Lemma linked_pages_more_likely_witness :
  link_graph sink_corpus /\
  get sink_corpus "2.html"%string = Ok ["1.html"%string] /\
  0 < 85 # 100 /\
  exists dist pq pr,
    transition_model sink_corpus "2.html"%string (85 # 100) = Ok dist /\
    get dist "1.html"%string = Ok pq /\ get dist "2.html"%string = Ok pr /\
    pr < pq.
Proof.
  split; [exact sink_graph|]. split; [reflexivity|]. split; [reflexivity|].
  apply (linked_pages_more_likely sink_corpus "2.html"%string ["1.html"%string]
           (85 # 100) "1.html"%string "2.html"%string sink_graph eq_refl).
  - reflexivity.
  - simpl. tauto.
  - simpl. tauto.
  - simpl. intros [H|[]]. discriminate.
Defined.

(** C9: in a corpus in which every linked page is a page of the corpus, the
    lookups that [transition_model] makes for the linked pages never miss, and
    the call returns a distribution; when a page links to a page outside the
    corpus, the call raises [KeyError]. *)
Theorem transition_model_lookup_safety (corpus : Corpus) page links d :
  NoDup (keys corpus) -> get corpus page = Ok links ->
  ((forall p ls q, In (p, ls) corpus -> In q ls -> In q (keys corpus)) ->
   exists dist, transition_model corpus page d = Ok dist) /\
  ((exists q, In q links /\ ~ In q (keys corpus)) ->
   transition_model corpus page d = Raise KeyError).
Proof.
  intros Hks Hget. destruct links as [|l links].
  - split.
    + intros _. unfold transition_model. rewrite Hget, bind_ret.
      rewrite pydiv_len, bind_ret by (intros ->; discriminate). eauto.
    + intros (q & [] & _).
  - rewrite (transition_model_links corpus page l links d Hks Hget). split.
    + intros Hcl.
      destruct (foldM_add_link_safe (d / len (l :: links)) (l :: links)
                  (map (fun k => (k, (1 - d) / len corpus)) (keys corpus)))
        as (dist & Hdist & _); [|eauto].
      rewrite keys_tabulate. intros q Hq. apply get_In in Hget. eauto.
    + intros Hmiss. apply foldM_add_link_missing. now rewrite keys_tabulate.
Qed.

Lemma transition_model_lookup_safety_witness :
  (NoDup (keys two_pages) /\
   get two_pages "1.html"%string = Ok ["2.html"%string] /\
   exists dist, transition_model two_pages "1.html"%string (85 # 100) = Ok dist) /\
  (NoDup (keys broken_corpus) /\
   get broken_corpus "a.html"%string = Ok ["x.html"%string] /\
   transition_model broken_corpus "a.html"%string (85 # 100) = Raise KeyError).
Proof.
  split.
  - split; [apply (keys_unique _ two_pages_graph)|]. split; [reflexivity|].
    apply (transition_model_lookup_safety two_pages "1.html"%string
             ["2.html"%string] (85 # 100) (keys_unique _ two_pages_graph) eq_refl).
    apply (links_closed _ two_pages_graph).
  - assert (Hnd : NoDup (keys broken_corpus)) by solve_nodup.
    split; [exact Hnd|]. split; [reflexivity|].
    apply (transition_model_lookup_safety broken_corpus "a.html"%string
             ["x.html"%string] (85 # 100) Hnd eq_refl).
    exists "x.html"%string. simpl. split; [tauto|]. intros [H|[]]. discriminate.
Defined.

(** * The sampling estimator *)

(** C10: on a non-empty link graph with [n >= 1], for every outcome of the
    random source, the visit counters of [sample_pagerank] are non-negative
    integers whose total is [n - 1] at the end of the walk, each rank is the
    counter divided by [n], the ranks add up to [(n - 1) / n] in exact
    arithmetic, and there is one rank per page of the corpus.  The bounds on
    the damping factor are not needed. *)
Theorem sample_pagerank_counts (rnd : RandomSource) (corpus : Corpus) d n :
  link_graph corpus -> corpus <> [] -> (1 <= n)%Z ->
  exists counts ranks,
    sample_counts rnd corpus d n = Ok counts /\
    Forall (fun c => (0 <= c)%Z) (values counts) /\
    total (values counts) = (n - 1)%Z /\
    sample_pagerank rnd corpus d n = Ok ranks /\
    ranks = proportions n counts /\
    keys ranks = keys corpus /\
    sum (values ranks) == inject_Z (n - 1) / inject_Z n.
Proof.
  intros Hg Hne Hn.
  destruct (sample_pagerank_walk rnd corpus d n Hg Hne Hn)
    as (counts & Hc & Hr & Hk & Hpos & Htot).
  exists counts, (proportions n counts). repeat split; auto.
  - now rewrite keys_proportions.
  - rewrite sum_proportions by lia. now rewrite Htot.
Qed.

Lemma sample_pagerank_counts_witness :
  link_graph two_pages /\ two_pages <> [] /\ (1 <= 5)%Z /\
  exists counts ranks,
    sample_counts (fun i => i) two_pages (85 # 100) 5 = Ok counts /\
    Forall (fun c => (0 <= c)%Z) (values counts) /\
    total (values counts) = (5 - 1)%Z /\
    sample_pagerank (fun i => i) two_pages (85 # 100) 5 = Ok ranks /\
    ranks = proportions 5 counts /\
    keys ranks = keys two_pages /\
    sum (values ranks) == inject_Z (5 - 1) / inject_Z 5.
Proof.
  split; [exact two_pages_graph|]. split; [discriminate|]. split; [lia|].
  apply (sample_pagerank_counts (fun i => i) two_pages (85 # 100) 5 two_pages_graph);
    [discriminate | lia].
Defined.

(** C1: what the code does where the claim says that [n] visits are recorded
    and that the ranks add up to one: on a non-empty link graph with [n >= 1],
    for every outcome of the random source, the counters of [sample_pagerank]
    add up to [n - 1], not [n], and the returned ranks do not add up to one. *)
Theorem sample_pagerank_misses_a_visit (rnd : RandomSource) (corpus : Corpus) d n :
  link_graph corpus -> corpus <> [] -> (1 <= n)%Z ->
  exists counts ranks,
    sample_counts rnd corpus d n = Ok counts /\
    total (values counts) <> n /\
    sample_pagerank rnd corpus d n = Ok ranks /\
    ~ sum (values ranks) == 1.
Proof.
  intros Hg Hne Hn.
  destruct (sample_pagerank_walk rnd corpus d n Hg Hne Hn)
    as (counts & Hc & Hr & Hk & Hpos & Htot).
  exists counts, (proportions n counts). repeat split; auto; [lia|].
  rewrite sum_proportions, Htot by lia. intros E.
  assert (Hq : 0 < inject_Z n).
  { change 0 with (inject_Z 0). rewrite <- Zlt_Qlt. lia. }
  assert (E' : inject_Z (n - 1) == inject_Z n).
  { rewrite <- (Qmult_1_l (inject_Z n)), <- E. field. lra. }
  apply (proj1 (inject_Z_injective _ _)) in E'. lia.
Qed.

Lemma sample_pagerank_misses_a_visit_witness :
  link_graph two_pages /\ two_pages <> [] /\ (1 <= 4)%Z /\
  exists counts ranks,
    sample_counts (fun i => i) two_pages (85 # 100) 4 = Ok counts /\
    total (values counts) <> 4%Z /\
    sample_pagerank (fun i => i) two_pages (85 # 100) 4 = Ok ranks /\
    ~ sum (values ranks) == 1.
Proof.
  split; [exact two_pages_graph|]. split; [discriminate|]. split; [lia|].
  apply (sample_pagerank_misses_a_visit (fun i => i) two_pages (85 # 100) 4
           two_pages_graph); [discriminate | lia].
Defined.

(** C4: what the code does where the claim says that [n = 1] gives rank one to
    the start page: on a non-empty corpus, whatever page the random source
    picks first, [sample_pagerank] with [n = 1] returns rank zero for every
    page, the start page included. *)
Theorem sample_pagerank_single_sample (rnd : RandomSource) (corpus : Corpus) d :
  NoDup (keys corpus) -> corpus <> [] ->
  exists start ranks,
    random_choice (rnd O) (keys corpus) = Ok start /\
    In start (keys corpus) /\
    sample_pagerank rnd corpus d 1 = Ok ranks /\
    keys ranks = keys corpus /\
    forall p, In p (keys corpus) -> exists v, get ranks p = Ok v /\ v == 0.
Proof.
  intros Hks Hne.
  destruct (random_choice_In (rnd O) (keys corpus)) as (start & Hstart & Hin).
  { destruct corpus; [congruence | discriminate]. }
  exists start, (map (fun k => (k, inject_Z 0 / inject_Z 1)) (keys corpus)).
  repeat split; auto.
  - unfold sample_pagerank, sample_counts. rewrite Hstart, bind_ret.
    simpl sample_loop. rewrite !bind_ret. simpl fst.
    rewrite <- (length_keys corpus), dict_zip_repeat by assumption.
    rewrite mapM_proportion by lia. unfold proportions. now rewrite map_map.
  - apply keys_tabulate.
  - intros p Hp. eexists. split; [now apply get_tabulate | reflexivity].
Qed.

Lemma sample_pagerank_single_sample_witness :
  NoDup (keys two_pages) /\ two_pages <> [] /\
  exists start ranks,
    random_choice 0 (keys two_pages) = Ok start /\
    In start (keys two_pages) /\
    sample_pagerank (fun _ => O) two_pages (85 # 100) 1 = Ok ranks /\
    keys ranks = keys two_pages /\
    forall p, In p (keys two_pages) -> exists v, get ranks p = Ok v /\ v == 0.
Proof.
  split; [apply (keys_unique _ two_pages_graph)|]. split; [discriminate|].
  apply (sample_pagerank_single_sample (fun _ => O) two_pages (85 # 100)
           (keys_unique _ two_pages_graph)).
  discriminate.
Defined.

(** * The iterative estimator *)

Lemma iterate_loop_mono (corpus : Corpus) (d : Q) (k : nat) :
  forall st r, iterate_loop k corpus d st = Some r ->
    forall k', (k <= k')%nat -> iterate_loop k' corpus d st = Some r.
Proof.
  induction k as [|k IH]; intros st r H k' Hle.
  - simpl in H. destruct (any_exceeds (snd st)) eqn:E; [discriminate|].
    now rewrite iterate_loop_stop.
  - destruct k' as [|k']; [lia|]. simpl in *.
    destruct (any_exceeds (snd st)); [|exact H].
    destruct (iterate_pass corpus d st) as [st'|e]; [|exact H].
    apply (IH st' r H). lia.
Qed.

(** C2, refuted on the corpus of scenario B: after the first pass of
    [iterate_pagerank] the rank of [2.html] is not the rank that a pass over
    the snapshot of the previous ranks computes, because the rank of [1.html]
    that it reads has already been updated in the same pass. *)
Lemma iterate_pass_not_snapshot :
  exists st0 rank' changes' snap v v',
    iterate_init sink_corpus = Ok st0 /\
    iterate_pass sink_corpus (85 # 100) st0 = Ok (rank', changes') /\
    snapshot_pass sink_corpus (85 # 100) (fst st0) = Ok snap /\
    get rank' "2.html"%string = Ok v /\
    get snap "2.html"%string = Ok v' /\
    ~ v == v'.
Proof.
  do 6 eexists.
  split; [vm_compute; reflexivity|].
  split; [vm_compute; reflexivity|].
  split; [vm_compute; reflexivity|].
  split; [vm_compute; reflexivity|].
  split; [vm_compute; reflexivity|].
  intros E. vm_compute in E. discriminate.
Qed.

(** C2, amended: a pass of [iterate_pagerank] never fails on a rank dictionary
    over the pages of the corpus; it visits the pages in the order of the
    dictionary and computes the new rank of the page at position [i] from the
    dictionary in which the [i] pages before it already hold their new ranks
    and the others still hold their previous ranks; the change recorded for a
    page is the absolute difference of its new and previous rank.  The test of
    the loop reads the changes of a whole pass: when one of them exceeds the
    threshold the loop runs another pass, and when all of them are at most the
    threshold the loop returns the ranks of that pass. *)
Theorem iterate_pass_in_place (corpus : Corpus) d (rank : dict Q)
  (changes : dict change) :
  NoDup (keys corpus) -> keys rank = keys corpus -> keys changes = keys corpus ->
  exists rank' changes',
    iterate_pass corpus d (rank, changes) = Ok (rank', changes') /\
    (forall i p old, nth_error rank i = Some (p, old) ->
       exists new,
         nth_error rank' i = Some (p, new) /\
         new_rank corpus d (firstn i rank' ++ skipn i rank) p = Ok new /\
         nth_error changes' i = Some (p, Fin (Qabs (new - old)))) /\
    ((exists p c, In (p, Fin c) changes' /\ threshold < c) ->
     forall fuel,
       iterate_loop (S fuel) corpus d (rank', changes')
       = match iterate_pass corpus d (rank', changes') with
         | Ok st => iterate_loop fuel corpus d st
         | Raise e => Some (Raise e)
         end) /\
    ((forall p c, In (p, c) changes' -> exists q, c = Fin q /\ q <= threshold) ->
     forall fuel, iterate_loop fuel corpus d (rank', changes') = Some (Ok rank')).
Proof.
  intros Hks Hr Hc.
  destruct (iterate_pass_swept corpus d rank changes Hks Hr Hc)
    as (rank' & changes' & Hpass & Hsw).
  exists rank', changes'. split; [exact Hpass|]. split; [|split].
  - intros i p old Hi. apply (swept_nth _ _ _ _ _ _ Hsw i p old Hi).
  - intros (p & c & Hin & Hlt) fuel.
    assert (E : any_exceeds changes' = true).
    { apply (any_exceeds_intro changes' (Fin c)); [|now apply exceeds_large].
      change (Fin c) with (snd (p, Fin c)). now apply in_map. }
    simpl. now rewrite E.
  - intros Hsmall fuel.
    apply (iterate_loop_stop fuel corpus d (rank', changes')).
    apply any_exceeds_false. intros c Hin.
    apply in_map_iff in Hin. destruct Hin as ([p c'] & <- & Hin). eauto.
Qed.

Lemma iterate_pass_in_place_witness :
  NoDup (keys sink_corpus) /\
  exists rank' changes',
    iterate_pass sink_corpus (85 # 100)
      ([("1.html"%string, 1 # 2); ("2.html"%string, 1 # 2)],
       [("1.html"%string, Inf); ("2.html"%string, Inf)])
    = Ok (rank', changes') /\
    exists new,
      nth_error rank' 1 = Some ("2.html"%string, new) /\
      new_rank sink_corpus (85 # 100)
        (firstn 1 rank' ++ [("2.html"%string, 1 # 2)]) "2.html"%string = Ok new /\
      nth_error changes' 1 = Some ("2.html"%string, Fin (Qabs (new - (1 # 2)))).
Proof.
  split; [apply (keys_unique _ sink_graph)|].
  destruct (iterate_pass_in_place sink_corpus (85 # 100)
              [("1.html"%string, 1 # 2); ("2.html"%string, 1 # 2)]
              [("1.html"%string, Inf); ("2.html"%string, Inf)]
              (keys_unique _ sink_graph) eq_refl eq_refl)
    as (rank' & changes' & Hpass & Hnth & _).
  exists rank', changes'. split; [exact Hpass|].
  apply (Hnth 1%nat "2.html"%string (1 # 2)). reflexivity.
Defined.

(** * Invalid arguments and termination *)

(** C3, refuted: neither estimator rejects a damping factor outside [0, 1],
    and [sample_pagerank] does not reject a negative [n]: each of these calls
    returns a result. *)
Lemma invalid_arguments_accepted :
  ~ 2 <= 1 /\ (-1 <= 0)%Z /\
  (exists ranks, sample_pagerank (fun _ => O) two_pages 2 3 = Ok ranks) /\
  (exists ranks, iterate_pagerank 1 single_page 2 = Some (Ok ranks)) /\
  (exists ranks, sample_pagerank (fun _ => O) two_pages (85 # 100) (-1) = Ok ranks).
Proof.
  split; [intros H; vm_compute in H; congruence|]. split; [lia|].
  split; [|split]; eexists; vm_compute; reflexivity.
Qed.

(** C3, amended: the estimators do not validate their arguments.  On an empty
    corpus both raise an exception before any rank is computed:
    [sample_pagerank] an [IndexError], from the choice of the first page, and
    [iterate_pagerank] a [ZeroDivisionError], from the first rank [1 / N]; on a
    non-empty corpus [sample_pagerank] with [n = 0] raises a
    [ZeroDivisionError] in the final division.  On a non-empty corpus a
    negative [n] raises nothing, [sample_pagerank] returns a rank for every
    page; [iterate_pagerank] raises nothing whatever the damping factor; and
    [sample_pagerank] does not reject a damping factor outside [0, 1] as
    such: with the damping factor two it returns a result, and with the
    damping factor [1e17] it fails only in the first step of the walk, where
    the weights cancel in doubles and the weighted draw raises a
    [ValueError]. *)
Theorem invalid_arguments_raise :
  (forall (rnd : RandomSource) d n, sample_pagerank rnd [] d n = Raise IndexError) /\
  (forall fuel d, iterate_pagerank fuel [] d = Some (Raise ZeroDivisionError)) /\
  (forall (rnd : RandomSource) (corpus : Corpus) d,
     NoDup (keys corpus) -> corpus <> [] ->
     sample_pagerank rnd corpus d 0 = Raise ZeroDivisionError) /\
  (forall (rnd : RandomSource) (corpus : Corpus) d n,
     NoDup (keys corpus) -> corpus <> [] -> (n < 0)%Z ->
     exists ranks,
       sample_pagerank rnd corpus d n = Ok ranks /\ keys ranks = keys corpus) /\
  (forall fuel (corpus : Corpus) d e,
     NoDup (keys corpus) -> corpus <> [] ->
     iterate_pagerank fuel corpus d <> Some (Raise e)) /\
  (~ 2 <= 1 /\
   exists ranks, sample_pagerank (fun _ => O) two_pages 2 3 = Ok ranks) /\
  ((1 <? 1e17)%float = true /\
   forall r,
     (dist <- Doubles.transition_model two_pages "1.html"%string 1e17%float ;;
      Doubles.random_choices r (keys dist) (values dist))
     = Raise ValueError).
Proof.
  split; [|split; [|split; [|split; [|split; [|split]]]]].
  - intros rnd d n. unfold sample_pagerank, sample_counts. simpl keys.
    now rewrite random_choice_empty.
  - intros fuel d. reflexivity.
  - intros rnd corpus d Hks Hne.
    destruct (random_choice_In (rnd O) (keys corpus)) as (start & Hstart & _).
    { destruct corpus; [congruence | discriminate]. }
    unfold sample_pagerank, sample_counts. rewrite Hstart, bind_ret.
    simpl sample_loop. rewrite !bind_ret. simpl fst.
    rewrite <- (length_keys corpus), dict_zip_repeat by assumption.
    destruct corpus as [|[p ls] corpus]; [congruence | reflexivity].
  - intros rnd corpus d n Hks Hne Hn.
    destruct (random_choice_In (rnd O) (keys corpus)) as (start & Hstart & _).
    { destruct corpus; [congruence | discriminate]. }
    exists (map (fun k => (k, inject_Z 0 / inject_Z n)) (keys corpus)).
    split; [|apply keys_tabulate].
    unfold sample_pagerank, sample_counts. rewrite Hstart, bind_ret.
    replace (Z.to_nat (n - 1)) with O by lia.
    simpl sample_loop. rewrite !bind_ret. simpl fst.
    rewrite <- (length_keys corpus), dict_zip_repeat by assumption.
    rewrite mapM_proportion by lia. unfold proportions. now rewrite map_map.
  - intros fuel corpus d e Hks Hne.
    destruct (iterate_pagerank_outcome fuel corpus d Hks Hne)
      as [Hnone|(ranks & Hrun & _)]; [rewrite Hnone | rewrite Hrun]; discriminate.
  - split; [intros H; vm_compute in H; congruence|].
    eexists. vm_compute. reflexivity.
  - split; [reflexivity|]. intros r. vm_compute. reflexivity.
Qed.

Lemma invalid_arguments_raise_witness :
  sample_pagerank (fun _ => O) [] (85 # 100) 10 = Raise IndexError /\
  iterate_pagerank 10 [] (85 # 100) = Some (Raise ZeroDivisionError) /\
  NoDup (keys two_pages) /\ two_pages <> [] /\ (-1 < 0)%Z /\
  sample_pagerank (fun _ => O) two_pages (85 # 100) 0 = Raise ZeroDivisionError /\
  (exists ranks,
     sample_pagerank (fun _ => O) two_pages (85 # 100) (-1) = Ok ranks /\
     keys ranks = keys two_pages) /\
  iterate_pagerank 10 two_pages 2 <> Some (Raise KeyError).
Proof.
  destruct invalid_arguments_raise as (H1 & H2 & H3 & H4 & H5 & _).
  assert (Hks : NoDup (keys two_pages)) by apply (keys_unique _ two_pages_graph).
  assert (Hne : two_pages <> []) by discriminate.
  split; [apply H1|]. split; [apply H2|].
  split; [exact Hks|]. split; [exact Hne|]. split; [lia|].
  split; [now apply H3|]. split; [apply H4; [exact Hks | exact Hne | lia]|].
  now apply H5.
Defined.

(** C7, refuted: [cycle_corpus] is a non-empty link graph and one is a damping
    factor in [0, 1], yet no number of passes is enough for the loop of
    [iterate_pagerank]: the rank of [b.html] changes by a quarter in every
    pass.  This is so in exact arithmetic and in doubles; in doubles the loop
    does not stop either with the largest damping factor below one,
    [1 - 2^-53]: after two passes, the passes exchange two states. *)
Lemma iterate_pagerank_diverges :
  link_graph cycle_corpus /\ cycle_corpus <> [] /\ 0 <= 1 /\ 1 <= 1 /\
  (forall fuel, iterate_pagerank fuel cycle_corpus 1 = None) /\
  (forall fuel, Doubles.iterate_pagerank fuel cycle_corpus 1 = None) /\
  (0 <=? 0x1.fffffffffffffp-1)%float = true /\
  (0x1.fffffffffffffp-1 <? 1)%float = true /\
  (forall fuel,
     Doubles.iterate_pagerank fuel cycle_corpus 0x1.fffffffffffffp-1 = None).
Proof.
  split; [exact cycle_graph|]. split; [discriminate|].
  split; [lra|]. split; [lra|]. split; [exact cycle_never_stops|].
  split; [|split; [reflexivity|split; [reflexivity|]]];
    apply doubles_never_stops; do 4 eexists;
    (split; [vm_compute; reflexivity|]);
    (split; [vm_compute; reflexivity|]);
    (split; [vm_compute; reflexivity|]);
    (split; [vm_compute; reflexivity|]);
    (split; [vm_compute; reflexivity|]);
    (split; [vm_compute; reflexivity|]);
    (split; [vm_compute; reflexivity|]);
    (split; [vm_compute; reflexivity|]);
    vm_compute; reflexivity.
Qed.

(** C7, amended: on a non-empty link graph and with a damping factor in
    [0, 1], [sample_pagerank] returns a result for every [n >= 1] and every
    outcome of the random source; in exact arithmetic, when the damping
    factor is below one, [iterate_pagerank] returns a result whenever it is
    given enough fuel, and the ranks it returns come from a pass in which the
    change of every page is at most the threshold. *)
Theorem estimators_terminate (corpus : Corpus) d :
  link_graph corpus -> corpus <> [] -> 0 <= d -> d <= 1 ->
  (forall (rnd : RandomSource) n, (1 <= n)%Z ->
     exists ranks, sample_pagerank rnd corpus d n = Ok ranks) /\
  (d < 1 ->
   exists fuel prev prev_changes ranks changes,
     (forall fuel', (fuel <= fuel')%nat ->
        iterate_pagerank fuel' corpus d = Some (Ok ranks)) /\
     iterate_pass corpus d (prev, prev_changes) = Ok (ranks, changes) /\
     forall p c, In (p, c) changes -> exists q, c = Fin q /\ q <= threshold).
Proof.
  intros Hg Hne Hlo Hhi. split.
  - intros rnd n Hn.
    destruct (sample_pagerank_walk rnd corpus d n Hg Hne Hn) as (counts & _ & Hr & _).
    eauto.
  - intros Hlt.
    destruct (iterate_pagerank_stops corpus d Hg Hne Hlo Hlt)
      as (fuel & prev & pc & ranks & changes & Hrun & Hpass & Hsmall).
    exists fuel, prev, pc, ranks, changes. split; [|split].
    + intros fuel' Hle. unfold iterate_pagerank in *.
      destruct (iterate_init corpus) as [st|e]; [|exact Hrun].
      now apply (iterate_loop_mono corpus d fuel st _ Hrun).
    + exact Hpass.
    + now apply any_exceeds_small.
Qed.

Lemma estimators_terminate_witness :
  link_graph two_pages /\ two_pages <> [] /\ 0 <= 85 # 100 /\ 85 # 100 <= 1 /\
  (exists ranks, sample_pagerank (fun i => i) two_pages (85 # 100) 10 = Ok ranks) /\
  (exists fuel ranks,
     forall fuel', (fuel <= fuel')%nat ->
       iterate_pagerank fuel' two_pages (85 # 100) = Some (Ok ranks)).
Proof.
  assert (Hlo : 0 <= 85 # 100) by (apply Qle_bool_iff; reflexivity).
  assert (Hhi : 85 # 100 <= 1) by (apply Qle_bool_iff; reflexivity).
  split; [exact two_pages_graph|]. split; [discriminate|].
  split; [exact Hlo|]. split; [exact Hhi|].
  destruct (estimators_terminate two_pages (85 # 100) two_pages_graph
              ltac:(discriminate) Hlo Hhi) as (Hsample & Hiter).
  split.
  - apply Hsample. lia.
  - destruct Hiter as (fuel & _ & _ & ranks & _ & Hrun & _); [reflexivity|].
    exists fuel, ranks. exact Hrun.
Defined.

(** * More on the transition model *)

Lemma len_ge_1 {A} (xs : list A) : xs <> [] -> 1 <= len xs.
Proof.
  destruct xs as [|x xs]; [congruence|]. intros _.
  rewrite len_cons. pose proof (len_nonneg xs). lra.
Qed.

Lemma div_bounds (a b : Q) : 0 <= a -> 1 <= b -> 0 <= a / b /\ a / b <= a.
Proof.
  intros Ha Hb. assert (Hb0 : 0 < b) by lra. split.
  - apply Qle_shift_div_l; [exact Hb0 | lra].
  - apply Qle_shift_div_r; [exact Hb0 | nra].
Qed.

(** X1: [transition_model] raises [KeyError] for a page that is not a page of
    the corpus, whatever the corpus and the damping factor. *)
Theorem transition_model_unknown_page (corpus : Corpus) page d :
  ~ In page (keys corpus) -> transition_model corpus page d = Raise KeyError.
Proof.
  intros Hmiss. unfold transition_model. now rewrite (get_missing corpus page Hmiss).
Qed.

Lemma transition_model_unknown_page_witness :
  ~ In "3.html"%string (keys two_pages) /\
  transition_model two_pages "3.html"%string (85 # 100) = Raise KeyError.
Proof.
  assert (H : ~ In "3.html"%string (keys two_pages)).
  { simpl. intros [H|[H|[]]]; discriminate. }
  split; [exact H|].
  exact (transition_model_unknown_page two_pages "3.html"%string (85 # 100) H).
Defined.

(** X2: on a link graph and with a damping factor in [0, 1], every
    probability that [transition_model] returns lies between zero and one. *)
Theorem transition_model_bounds (corpus : Corpus) page links d :
  link_graph corpus -> get corpus page = Ok links -> 0 <= d -> d <= 1 ->
  exists dist,
    transition_model corpus page d = Ok dist /\
    forall q v, get dist q = Ok v -> 0 <= v /\ v <= 1.
Proof.
  intros Hg Hget Hlo Hhi. apply get_In in Hget.
  assert (Hne : corpus <> []) by (intros ->; contradiction).
  eexists. split; [apply (link_graph_closed corpus page links d Hg Hget)|].
  intros q v Hv. apply get_In in Hv. apply in_map_iff in Hv.
  destruct Hv as (k & Hk & _). injection Hk as _ <-.
  pose proof (len_ge_1 corpus Hne) as HN.
  unfold transition_prob. destruct links as [|l links].
  - destruct (div_bounds 1 (len corpus)); lra.
  - assert (HL : 1 <= len (l :: links)) by now apply len_ge_1.
    destruct (div_bounds (1 - d) (len corpus)); [lra | exact HN |].
    destruct (div_bounds d (len (l :: links))); [lra | exact HL |].
    destruct (mem k (l :: links)); lra.
Qed.

Lemma transition_model_bounds_witness :
  link_graph sink_corpus /\
  get sink_corpus "2.html"%string = Ok ["1.html"%string] /\
  0 <= 85 # 100 /\ 85 # 100 <= 1 /\
  exists dist,
    transition_model sink_corpus "2.html"%string (85 # 100) = Ok dist /\
    forall q v, get dist q = Ok v -> 0 <= v /\ v <= 1.
Proof.
  assert (Hlo : 0 <= 85 # 100) by (apply Qle_bool_iff; reflexivity).
  assert (Hhi : 85 # 100 <= 1) by (apply Qle_bool_iff; reflexivity).
  split; [exact sink_graph|]. split; [reflexivity|].
  split; [exact Hlo|]. split; [exact Hhi|].
  exact (transition_model_bounds sink_corpus "2.html"%string ["1.html"%string]
           (85 # 100) sink_graph eq_refl Hlo Hhi).
Defined.

Lemma transition_prob_nonneg (corpus : Corpus) (links : list Page) d k :
  corpus <> [] -> 0 <= d -> d <= 1 -> 0 <= transition_prob corpus links d k.
Proof.
  intros Hne Hlo Hhi. pose proof (len_ge_1 corpus Hne) as HN.
  unfold transition_prob. destruct links as [|l links].
  - destruct (div_bounds 1 (len corpus)); lra.
  - assert (HL : 1 <= len (l :: links)) by now apply len_ge_1.
    destruct (div_bounds (1 - d) (len corpus)); [lra | exact HN |].
    destruct (div_bounds d (len (l :: links))); [lra | exact HL |].
    destruct (mem k (l :: links)); lra.
Qed.

(** X3: on a link graph and with a damping factor in [0, 1], the weighted
    draw that follows [transition_model] in the loop of [sample_pagerank]
    never raises, because no weight is negative and their total is positive,
    and the page it returns is a page of the corpus: the walk stays in the
    corpus. *)
Theorem next_page_in_corpus (r : nat) (corpus : Corpus) page d :
  link_graph corpus -> In page (keys corpus) -> 0 <= d -> d <= 1 ->
  exists dist next,
    transition_model corpus page d = Ok dist /\
    (forall q v, get dist q = Ok v -> 0 <= v) /\
    0 < sum (values dist) /\
    random_choices r (keys dist) (values dist) = Ok next /\
    In next (keys corpus).
Proof.
  intros Hg Hpage Hlo Hhi.
  destruct (keys_In _ _ Hpage) as [links Hin].
  assert (Hne : corpus <> []) by (intros ->; contradiction).
  pose proof (link_graph_closed corpus page links d Hg Hin) as Htm.
  destruct (transition_model_draw (fun _ => r) corpus page d O Hg Hpage)
    as (dist & next & Hrun & Hdraw & Hnext).
  rewrite Htm in Hrun. injection Hrun as <-.
  eexists _, next. split; [exact Htm|]. split; [|split; [|now split]].
  - intros q v Hv. apply get_In in Hv. apply in_map_iff in Hv.
    destruct Hv as (k & E & _). injection E as _ <-.
    apply (transition_prob_nonneg corpus links d k Hne Hlo Hhi).
  - rewrite values_tabulate. destruct Hg as [Hks Hnd Hcl _].
    rewrite transition_prob_sum; eauto; [lra|]. intros q Hq. eauto.
Qed.

Lemma next_page_in_corpus_witness :
  link_graph sink_corpus /\ In "1.html"%string (keys sink_corpus) /\
  0 <= 85 # 100 /\ 85 # 100 <= 1 /\
  exists dist next,
    transition_model sink_corpus "1.html"%string (85 # 100) = Ok dist /\
    (forall q v, get dist q = Ok v -> 0 <= v) /\
    0 < sum (values dist) /\
    random_choices 7 (keys dist) (values dist) = Ok next /\
    In next (keys sink_corpus).
Proof.
  assert (H : In "1.html"%string (keys sink_corpus)) by (simpl; tauto).
  assert (Hlo : 0 <= 85 # 100) by (apply Qle_bool_iff; reflexivity).
  assert (Hhi : 85 # 100 <= 1) by (apply Qle_bool_iff; reflexivity).
  split; [exact sink_graph|]. split; [exact H|].
  split; [exact Hlo|]. split; [exact Hhi|].
  exact (next_page_in_corpus 7 sink_corpus "1.html"%string (85 # 100)
           sink_graph H Hlo Hhi).
Defined.

(** * More on the sampling estimator *)




(** X5: with a negative [n] the loop of [sample_pagerank] does not run and no
    exception is raised: on a non-empty corpus the call returns rank zero for
    every page. *)
Theorem sample_pagerank_negative (rnd : RandomSource) (corpus : Corpus) d n :
  NoDup (keys corpus) -> corpus <> [] -> (n < 0)%Z ->
  exists ranks,
    sample_pagerank rnd corpus d n = Ok ranks /\
    keys ranks = keys corpus /\
    forall p, In p (keys corpus) -> exists v, get ranks p = Ok v /\ v == 0.
Proof.
  intros Hks Hne Hn.
  destruct (random_choice_In (rnd O) (keys corpus)) as (start & Hstart & _).
  { destruct corpus; [congruence | discriminate]. }
  exists (map (fun k => (k, inject_Z 0 / inject_Z n)) (keys corpus)).
  split; [|split].
  - unfold sample_pagerank, sample_counts. rewrite Hstart, bind_ret.
    replace (Z.to_nat (n - 1)) with O by lia.
    simpl sample_loop. rewrite !bind_ret. simpl fst.
    rewrite <- (length_keys corpus), dict_zip_repeat by assumption.
    rewrite mapM_proportion by lia. unfold proportions. now rewrite map_map.
  - apply keys_tabulate.
  - intros p Hp. eexists. split; [now apply get_tabulate|].
    unfold Qdiv. change (inject_Z 0) with 0. ring.
Qed.

Lemma sample_pagerank_negative_witness :
  NoDup (keys two_pages) /\ two_pages <> [] /\ (-3 < 0)%Z /\
  exists ranks,
    sample_pagerank (fun i => i) two_pages (85 # 100) (-3) = Ok ranks /\
    keys ranks = keys two_pages /\
    forall p, In p (keys two_pages) -> exists v, get ranks p = Ok v /\ v == 0.
Proof.
  split; [apply (keys_unique _ two_pages_graph)|]. split; [discriminate|].
  split; [lia|].
  apply (sample_pagerank_negative (fun i => i) two_pages (85 # 100) (-3)
           (keys_unique _ two_pages_graph)); [discriminate | lia].
Defined.

Lemma sample_step_ext (rnd rnd' : RandomSource) (corpus : Corpus) d j st :
  rnd (S j) = rnd' (S j) ->
  sample_step rnd corpus d j st = sample_step rnd' corpus d j st.
Proof.
  intros H. unfold sample_step. destruct st as [counts page]. now rewrite H.
Qed.

Lemma sample_loop_ext (rnd rnd' : RandomSource) (corpus : Corpus) d :
  forall k j st,
    (forall i, (j < i <= j + k)%nat -> rnd i = rnd' i) ->
    sample_loop rnd corpus d k j st = sample_loop rnd' corpus d k j st.
Proof.
  induction k as [|k IH]; intros j st H; [reflexivity|].
  simpl. rewrite (sample_step_ext rnd rnd') by (apply H; lia).
  destruct (sample_step rnd' corpus d j st) as [st'|e]; [|reflexivity].
  simpl. apply IH. intros i Hi. apply H. lia.
Qed.

(** X6: [sample_pagerank] makes one uniform draw and [n - 1] weighted draws:
    two random sources that agree on their first [max(n, 1)] outcomes give the
    same result. *)
Theorem sample_pagerank_draws (rnd rnd' : RandomSource) (corpus : Corpus) d n :
  (forall i, (Z.of_nat i < Z.max n 1)%Z -> rnd i = rnd' i) ->
  sample_pagerank rnd corpus d n = sample_pagerank rnd' corpus d n.
Proof.
  intros H. unfold sample_pagerank, sample_counts.
  rewrite (H O) by lia.
  destruct (random_choice (rnd' O) (keys corpus)) as [start|e]; [|reflexivity].
  rewrite !bind_ret.
  rewrite (sample_loop_ext rnd rnd' corpus d (Z.to_nat (n - 1)) O); [reflexivity|].
  intros i Hi. apply H. lia.
Qed.

Lemma sample_pagerank_draws_witness :
  (forall i, (Z.of_nat i < Z.max 3 1)%Z ->
     (fun i => i) i = (fun i => if (i <? 3)%nat then i else 0%nat) i) /\
  sample_pagerank (fun i => i) two_pages (85 # 100) 3
  = sample_pagerank (fun i => if (i <? 3)%nat then i else 0%nat) two_pages
      (85 # 100) 3.
Proof.
  assert (H : forall i, (Z.of_nat i < Z.max 3 1)%Z ->
                (fun i => i) i = (fun i => if (i <? 3)%nat then i else 0%nat) i).
  { intros i Hi. destruct (Nat.ltb_spec i 3); [reflexivity | lia]. }
  split; [exact H|].
  exact (sample_pagerank_draws (fun i => i)
           (fun i => if (i <? 3)%nat then i else 0%nat) two_pages (85 # 100) 3 H).
Defined.

Lemma transition_model_missing_link (corpus : Corpus) page links d :
  NoDup (keys corpus) -> get corpus page = Ok links ->
  (exists q, In q links /\ ~ In q (keys corpus)) ->
  transition_model corpus page d = Raise KeyError.
Proof.
  intros Hks Hget Hmiss. destruct links as [|l links].
  - destruct Hmiss as (q & [] & _).
  - rewrite (transition_model_links corpus page l links d Hks Hget).
    apply foldM_add_link_missing. now rewrite keys_tabulate.
Qed.

(** X7: the walk needs the links to stay in the corpus: when the page chosen
    first links to a page that is not in the corpus and [n >= 2],
    [sample_pagerank] raises [KeyError]. *)
Theorem sample_pagerank_missing_link (rnd : RandomSource) (corpus : Corpus)
  d n start links :
  NoDup (keys corpus) ->
  random_choice (rnd O) (keys corpus) = Ok start ->
  get corpus start = Ok links ->
  (exists q, In q links /\ ~ In q (keys corpus)) ->
  (2 <= n)%Z ->
  sample_pagerank rnd corpus d n = Raise KeyError.
Proof.
  intros Hks Hstart Hget Hmiss Hn.
  assert (Hin : In start (keys corpus)).
  { apply get_In in Hget. eapply In_keys; eauto. }
  unfold sample_pagerank, sample_counts. rewrite Hstart, bind_ret.
  destruct (Z.to_nat (n - 1)) as [|k] eqn:E; [lia|].
  cbn [sample_loop]. unfold sample_step.
  rewrite <- (length_keys corpus), dict_zip_repeat by assumption.
  rewrite (get_tabulate (fun _ => 0%Z) _ _ Hin), bind_ret.
  now rewrite (transition_model_missing_link corpus start links d Hks Hget Hmiss).
Qed.

Lemma sample_pagerank_missing_link_witness :
  NoDup (keys broken_corpus) /\
  random_choice 0 (keys broken_corpus) = Ok "a.html"%string /\
  get broken_corpus "a.html"%string = Ok ["x.html"%string] /\
  (exists q, In q ["x.html"%string] /\ ~ In q (keys broken_corpus)) /\
  (2 <= 2)%Z /\
  sample_pagerank (fun _ => O) broken_corpus (85 # 100) 2 = Raise KeyError.
Proof.
  assert (Hnd : NoDup (keys broken_corpus)) by solve_nodup.
  assert (Hmiss : exists q, In q ["x.html"%string] /\ ~ In q (keys broken_corpus)).
  { exists "x.html"%string. simpl. split; [tauto|]. intros [H|[]]. discriminate. }
  split; [exact Hnd|]. split; [reflexivity|]. split; [reflexivity|].
  split; [exact Hmiss|]. split; [lia|].
  exact (sample_pagerank_missing_link (fun _ => O) broken_corpus (85 # 100) 2
           "a.html"%string ["x.html"%string] Hnd eq_refl eq_refl Hmiss
           ltac:(lia)).
Defined.

(** * More on the iterative estimator *)

(** X8: on a non-empty corpus, [iterate_pagerank] never raises an exception,
    whatever the links (they may even leave the corpus) and the damping
    factor; when it returns, the result has one rank per page of the corpus,
    in the order of the corpus. *)
Theorem iterate_pagerank_never_raises (fuel : nat) (corpus : Corpus) d :
  NoDup (keys corpus) -> corpus <> [] ->
  iterate_pagerank fuel corpus d = None \/
  exists ranks,
    iterate_pagerank fuel corpus d = Some (Ok ranks) /\ keys ranks = keys corpus.
Proof.
  intros Hks Hne. unfold iterate_pagerank. rewrite (iterate_init_Ok corpus Hks Hne).
  destruct (iterate_loop_invariant corpus d (fun _ => True) Hks (fun _ _ _ _ _ _ => I)
              fuel (map (fun k => (k, 1 / len corpus)) (keys corpus),
                    map (fun k : Page => (k, Inf)) (keys corpus)))
    as [Hnone|(ranks & Hrun & Hk & _)];
    try apply keys_tabulate; auto.
  right. eauto.
Qed.

Lemma iterate_pagerank_never_raises_witness :
  NoDup (keys broken_corpus) /\ broken_corpus <> [] /\
  (iterate_pagerank 3 broken_corpus 5 = None \/
   exists ranks,
     iterate_pagerank 3 broken_corpus 5 = Some (Ok ranks) /\
     keys ranks = keys broken_corpus).
Proof.
  assert (Hnd : NoDup (keys broken_corpus)) by solve_nodup.
  split; [exact Hnd|]. split; [discriminate|].
  apply (iterate_pagerank_never_raises 3 broken_corpus 5 Hnd). discriminate.
Defined.

Lemma val_nonneg (r : dict Q) (q : Page) :
  (forall v, In v (values r) -> 0 <= v) -> 0 <= val r q.
Proof.
  intros H. unfold val. destruct (get r q) as [v|e] eqn:E; [|lra].
  apply H. apply get_In in E. change v with (snd (q, v)). now apply in_map.
Qed.

Lemma sum_nonneg (xs : list Q) : (forall x, In x xs -> 0 <= x) -> 0 <= sum xs.
Proof.
  induction xs as [|x xs IH]; intros H; simpl; [lra|].
  assert (0 <= x) by (apply H; now left).
  assert (0 <= sum xs) by (apply IH; intros; apply H; now right). lra.
Qed.

(** New ranks computed from non-negative ranks are at least the base rank. *)
Lemma new_rank_lower (corpus : Corpus) d (r : dict Q) page v :
  corpus <> [] -> incl (keys corpus) (keys r) -> 0 <= d ->
  (forall x, In x (values r) -> 0 <= x) ->
  new_rank corpus d r page = Ok v -> (1 - d) / len corpus <= v.
Proof.
  intros Hne Hincl Hd Hpos Hv.
  destruct (new_rank_value corpus d r page Hne Hincl) as (w & Hw & Hsum).
  rewrite Hv in Hw. injection Hw as <-. rewrite Hsum.
  assert (Hs : 0 <= sum (map (fun item => weight corpus page (snd item)
                                          * val r (fst item)) corpus)).
  { apply sum_nonneg. intros x Hx. apply in_map_iff in Hx.
    destruct Hx as (item & <- & _).
    apply Qmult_le_0_compat; [apply weight_nonneg | now apply val_nonneg]. }
  assert (0 <= d * sum (map (fun item => weight corpus page (snd item)
                                         * val r (fst item)) corpus))
    by now apply Qmult_le_0_compat.
  lra.
Qed.

Lemma swept_lower (corpus : Corpus) d done todo new ch :
  swept corpus d done todo new ch ->
  corpus <> [] -> 0 <= d -> d <= 1 ->
  incl (keys corpus) (keys (done ++ todo)) ->
  (forall x, In x (values (done ++ todo)) -> 0 <= x) ->
  forall x, In x (values new) -> (1 - d) / len corpus <= x.
Proof.
  intros Hsw Hne Hlo Hhi.
  assert (Hbase : 0 <= (1 - d) / len corpus).
  { apply Qle_shift_div_l; [now apply len_pos | lra]. }
  induction Hsw as [|done p x v todo new ch Hv Hsw IH]; intros Hincl Hpos y Hy;
    [contradiction|].
  pose proof (new_rank_lower corpus d _ p v Hne Hincl Hlo Hpos Hv) as Hvb.
  simpl in Hy. destruct Hy as [<-|Hy]; [exact Hvb|].
  apply IH; [| |exact Hy].
  - rewrite <- app_assoc. intros q Hq. apply Hincl in Hq.
    rewrite keys_app in *. simpl in *. exact Hq.
  - intros z Hz. rewrite <- app_assoc in Hz. unfold values in *.
    rewrite map_app in *. simpl in *. apply in_app_or in Hz.
    destruct Hz as [Hz|[<-|Hz]]; [| lra |]; apply Hpos; apply in_or_app; simpl; tauto.
Qed.

(** X9: with a damping factor in [0, 1], every rank that [iterate_pagerank]
    returns on a non-empty corpus is at least [(1 - d) / N], and so not
    negative. *)
Theorem iterate_pagerank_lower_bound (fuel : nat) (corpus : Corpus) d ranks :
  NoDup (keys corpus) -> corpus <> [] -> 0 <= d -> d <= 1 ->
  iterate_pagerank fuel corpus d = Some (Ok ranks) ->
  forall p v, get ranks p = Ok v -> (1 - d) / len corpus <= v /\ 0 <= v.
Proof.
  intros Hks Hne Hlo Hhi Hrun p v Hv.
  assert (HN : 0 < len corpus) by now apply len_pos.
  assert (Hbase : 0 <= (1 - d) / len corpus).
  { apply Qle_shift_div_l; [exact HN | lra]. }
  assert (Hall : forall x, In x (values ranks) -> (1 - d) / len corpus <= x).
  { unfold iterate_pagerank in Hrun. rewrite (iterate_init_Ok corpus Hks Hne) in Hrun.
    destruct (iterate_loop_invariant corpus d
                (fun r => forall x, In x (values r) -> (1 - d) / len corpus <= x)
                Hks) with (fuel := fuel)
                (st := (map (fun k => (k, 1 / len corpus)) (keys corpus),
                        map (fun k : Page => (k, Inf)) (keys corpus)))
      as [Hnone|(ranks' & Hrun' & _ & HP)].
    - intros r r' ch' Hr HP Hsw.
      apply (swept_lower corpus d [] r r' ch' Hsw Hne Hlo Hhi).
      + simpl. rewrite Hr. apply incl_refl.
      + simpl. intros x Hx. specialize (HP x Hx). lra.
    - apply keys_tabulate.
    - apply keys_tabulate.
    - simpl. rewrite values_tabulate. intros x Hx. apply in_map_iff in Hx.
      destruct Hx as (k & <- & _).
      apply Qle_shift_div_l; [exact HN|].
      setoid_replace ((1 - d) / len corpus * len corpus) with (1 - d)
        by (field; lra).
      lra.
    - congruence.
    - rewrite Hrun in Hrun'. injection Hrun' as <-. exact HP. }
  assert (Hb : (1 - d) / len corpus <= v).
  { apply Hall. apply get_In in Hv. change v with (snd (p, v)). now apply in_map. }
  split; [exact Hb | lra].
Qed.

Lemma iterate_pagerank_lower_bound_witness :
  NoDup (keys two_pages) /\ two_pages <> [] /\ 0 <= 85 # 100 /\ 85 # 100 <= 1 /\
  exists ranks,
    iterate_pagerank 2 two_pages (85 # 100) = Some (Ok ranks) /\
    forall p v, get ranks p = Ok v ->
      (1 - (85 # 100)) / len two_pages <= v /\ 0 <= v.
Proof.
  assert (Hlo : 0 <= 85 # 100) by (apply Qle_bool_iff; reflexivity).
  assert (Hhi : 85 # 100 <= 1) by (apply Qle_bool_iff; reflexivity).
  split; [apply (keys_unique _ two_pages_graph)|]. split; [discriminate|].
  split; [exact Hlo|]. split; [exact Hhi|].
  eexists. split; [vm_compute; reflexivity|].
  apply (iterate_pagerank_lower_bound 2 two_pages (85 # 100) _
           (keys_unique _ two_pages_graph) ltac:(discriminate) Hlo Hhi).
  vm_compute. reflexivity.
Defined.

Lemma val_uniform (r : dict Q) (u : Q) (q : Page) :
  In q (keys r) -> (forall x, In x (values r) -> x == u) -> val r q == u.
Proof.
  intros Hq H. destruct (get_present r q Hq) as [v Hv]. unfold val. rewrite Hv.
  apply H. apply get_In in Hv. change v with (snd (q, v)). now apply in_map.
Qed.

(** A sweep from ranks that are all [u], when [u] is a fixed point of the
    update: the ranks stay [u] and no rank changes. *)
Lemma swept_uniform (corpus : Corpus) d (u : Q) :
  (forall r p v, keys r = keys corpus -> In p (keys corpus) ->
     (forall x, In x (values r) -> x == u) ->
     new_rank corpus d r p = Ok v -> v == u) ->
  forall done todo new ch,
    swept corpus d done todo new ch ->
    keys (done ++ todo) = keys corpus ->
    (forall x, In x (values (done ++ todo)) -> x == u) ->
    (forall x, In x (values new) -> x == u) /\
    (forall c, In c (values ch) -> exists q, c = Fin q /\ q == 0).
Proof.
  intros Hfix done todo new ch Hsw.
  induction Hsw as [|done p x v todo new ch Hv Hsw IH]; intros Hk Hu.
  - split; intros ? [].
  - assert (Hp : In p (keys corpus)).
    { rewrite <- Hk, keys_app. apply in_or_app. simpl. tauto. }
    pose proof (Hfix _ p v Hk Hp Hu Hv) as Hvu.
    assert (Hx : x == u).
    { apply Hu. unfold values. rewrite map_app. apply in_or_app. simpl. tauto. }
    destruct IH as [IHn IHc].
    + rewrite <- Hk, <- app_assoc, !keys_app. reflexivity.
    + intros z Hz. rewrite <- app_assoc in Hz. unfold values in *.
      rewrite map_app in *. simpl in *. apply in_app_or in Hz.
      destruct Hz as [Hz|[<-|Hz]]; [| exact Hvu |];
        apply Hu; apply in_or_app; simpl; tauto.
    + split.
      * intros z [<-|Hz]; [exact Hvu | now apply IHn].
      * intros c [<-|Hc]; [|now apply IHc].
        exists (Qabs (v - x)). split; [reflexivity|].
        setoid_replace (v - x) with 0 by (rewrite Hvu, Hx; ring). reflexivity.
Qed.

(** When the uniform rank is a fixed point of the update, the loop stops after
    its first pass and returns uniform ranks. *)
Lemma iterate_pagerank_uniform (corpus : Corpus) d :
  NoDup (keys corpus) -> corpus <> [] ->
  (forall r p v, keys r = keys corpus -> In p (keys corpus) ->
     (forall x, In x (values r) -> x == 1 / len corpus) ->
     new_rank corpus d r p = Ok v -> v == 1 / len corpus) ->
  forall fuel, exists ranks,
    iterate_pagerank (S fuel) corpus d = Some (Ok ranks) /\
    keys ranks = keys corpus /\
    forall p v, get ranks p = Ok v -> v == 1 / len corpus.
Proof.
  intros Hks Hne Hfix fuel.
  set (r0 := map (fun k => (k, 1 / len corpus)) (keys corpus)).
  set (c0 := map (fun k : Page => (k, Inf)) (keys corpus)).
  assert (Hk0 : keys r0 = keys corpus) by apply keys_tabulate.
  assert (Hkc : keys c0 = keys corpus) by apply keys_tabulate.
  assert (E0 : any_exceeds c0 = true).
  { unfold any_exceeds, c0. rewrite values_tabulate.
    destruct corpus; [congruence | reflexivity]. }
  destruct (iterate_pass_swept corpus d r0 c0 Hks Hk0 Hkc) as (r1 & c1 & Hpass & Hsw).
  destruct (swept_uniform corpus d (1 / len corpus) Hfix [] r0 r1 c1 Hsw Hk0)
    as [Hnew Hch].
  { simpl. unfold r0. rewrite values_tabulate. intros x Hx.
    apply in_map_iff in Hx. destruct Hx as (k & <- & _). reflexivity. }
  exists r1. split; [|split].
  - unfold iterate_pagerank. rewrite (iterate_init_Ok corpus Hks Hne). fold r0 c0.
    rewrite (iterate_loop_pass fuel corpus d (r0, c0) (r1, c1) E0 Hpass).
    apply (iterate_loop_stop fuel corpus d (r1, c1)).
    apply any_exceeds_false. intros c Hc. destruct (Hch c Hc) as (q & -> & Hq).
    exists q. split; [reflexivity|]. rewrite Hq. unfold threshold.
    apply Qle_bool_iff. reflexivity.
  - destruct (swept_keys _ _ _ _ _ _ Hsw) as [Hk1 _]. now rewrite Hk1.
  - intros p v Hv. apply Hnew. apply get_In in Hv.
    change v with (snd (p, v)). now apply in_map.
Qed.

(** X10: with a damping factor of zero the links do not matter: on every
    non-empty corpus [iterate_pagerank] stops after its first pass and returns
    the rank [1 / N] for every page. *)
Theorem iterate_pagerank_no_damping (fuel : nat) (corpus : Corpus) :
  NoDup (keys corpus) -> corpus <> [] ->
  exists ranks,
    iterate_pagerank (S fuel) corpus 0 = Some (Ok ranks) /\
    keys ranks = keys corpus /\
    forall p v, get ranks p = Ok v -> v == 1 / len corpus.
Proof.
  intros Hks Hne. apply iterate_pagerank_uniform; auto.
  intros r p v Hr _ _ Hv.
  destruct (new_rank_value corpus 0 r p Hne) as (w & Hw & Hsum);
    [rewrite Hr; apply incl_refl|].
  rewrite Hv in Hw. injection Hw as <-. rewrite Hsum.
  pose proof (len_pos corpus Hne). field. lra.
Qed.

Lemma iterate_pagerank_no_damping_witness :
  NoDup (keys sink_corpus) /\ sink_corpus <> [] /\
  exists ranks,
    iterate_pagerank 1 sink_corpus 0 = Some (Ok ranks) /\
    keys ranks = keys sink_corpus /\
    forall p v, get ranks p = Ok v -> v == 1 / len sink_corpus.
Proof.
  split; [apply (keys_unique _ sink_graph)|]. split; [discriminate|].
  apply (iterate_pagerank_no_damping 0 sink_corpus (keys_unique _ sink_graph)).
  discriminate.
Defined.

Lemma sum_map_scale {A} (f g : A -> Q) (u : Q) (xs : list A) :
  (forall x, In x xs -> g x == u) ->
  sum (map (fun x => f x * g x) xs) == u * sum (map f xs).
Proof.
  induction xs as [|x xs IH]; intros H; simpl; [ring|].
  rewrite IH by (intros; apply H; now right).
  rewrite (H x) by now left. ring.
Qed.

(** X11: on a balanced corpus, where every page receives one page worth of
    shares (a cycle, a pair of pages that link to each other, a single page),
    and with a damping factor in [0, 1], the uniform ranks are a fixed point
    of the update: [iterate_pagerank] stops after its first pass, and every
    rank it returns is within the threshold of [1 / N]. *)
Theorem iterate_pagerank_balanced (fuel : nat) (corpus : Corpus) d :
  NoDup (keys corpus) -> corpus <> [] -> balanced corpus -> 0 <= d -> d <= 1 ->
  exists ranks,
    iterate_pagerank (S fuel) corpus d = Some (Ok ranks) /\
    keys ranks = keys corpus /\
    forall p v, get ranks p = Ok v -> Qabs (v - 1 / len corpus) <= threshold.
Proof.
  intros Hks Hne Hbal _ _.
  assert (Hexact : exists ranks,
             iterate_pagerank (S fuel) corpus d = Some (Ok ranks) /\
             keys ranks = keys corpus /\
             forall p v, get ranks p = Ok v -> v == 1 / len corpus);
    [|destruct Hexact as (ranks & Hrun & Hk & Hv); exists ranks;
      split; [exact Hrun|]; split; [exact Hk|];
      intros p v Hpv; rewrite (Hv p v Hpv);
      setoid_replace (1 / len corpus - 1 / len corpus) with 0
        by (pose proof (len_pos corpus Hne); field; lra);
      apply Qle_bool_iff; reflexivity].
  apply iterate_pagerank_uniform; auto.
  intros r p v Hr Hin Hu Hv.
  destruct (new_rank_value corpus d r p Hne) as (w & Hw & Hsum);
    [rewrite Hr; apply incl_refl|].
  rewrite Hv in Hw. injection Hw as <-. rewrite Hsum.
  rewrite (sum_map_scale (fun item => weight corpus p (snd item))
             (fun item => val r (fst item)) (1 / len corpus)).
  - rewrite (Hbal p Hin). pose proof (len_pos corpus Hne). field. lra.
  - intros [q ls] Hq. simpl fst. apply val_uniform; [|exact Hu].
    rewrite Hr. eapply In_keys; eauto.
Qed.

Lemma two_pages_balanced : balanced two_pages.
Proof.
  intros p Hp. simpl in Hp. destruct Hp as [<-|[<-|[]]]; reflexivity.
Qed.

Lemma iterate_pagerank_balanced_witness :
  NoDup (keys two_pages) /\ two_pages <> [] /\ balanced two_pages /\
  0 <= 85 # 100 /\ 85 # 100 <= 1 /\
  exists ranks,
    iterate_pagerank 1 two_pages (85 # 100) = Some (Ok ranks) /\
    keys ranks = keys two_pages /\
    forall p v, get ranks p = Ok v -> Qabs (v - 1 / len two_pages) <= threshold.
Proof.
  assert (Hlo : 0 <= 85 # 100) by (apply Qle_bool_iff; reflexivity).
  assert (Hhi : 85 # 100 <= 1) by (apply Qle_bool_iff; reflexivity).
  split; [apply (keys_unique _ two_pages_graph)|]. split; [discriminate|].
  split; [exact two_pages_balanced|]. split; [exact Hlo|]. split; [exact Hhi|].
  apply (iterate_pagerank_balanced 0 two_pages (85 # 100)
           (keys_unique _ two_pages_graph)); [discriminate | | exact Hlo | exact Hhi].
  exact two_pages_balanced.
Defined.

(** * The crawler and the main program *)

Lemma substring_all (s : string) : substring 0 (String.length s) s = s.
Proof.
  induction s as [|c s IH]; simpl; [reflexivity | now rewrite IH].
Qed.

Lemma substring_skip (stem suffix : string) :
  substring (String.length stem) (String.length suffix) (stem ++ suffix) = suffix.
Proof.
  induction stem as [|c stem IH]; simpl; [apply substring_all | exact IH].
Qed.

Lemma string_length_append (a b : string) :
  String.length (a ++ b) = (String.length a + String.length b)%nat.
Proof.
  induction a as [|c a IH]; simpl; [reflexivity | now rewrite IH].
Qed.

Lemma substring_split (s : string) :
  forall n, (n <= String.length s)%nat ->
    s = (substring 0 n s ++ substring n (String.length s - n) s)%string.
Proof.
  induction s as [|c s IH]; intros n Hn.
  - destruct n; [reflexivity | simpl in Hn; lia].
  - destruct n as [|n].
    + simpl. now rewrite substring_all.
    + simpl in Hn. simpl. f_equal. apply IH. lia.
Qed.

(** [endswith] is what its name says. *)
Lemma endswith_spec (s suffix : string) :
  endswith s suffix = true <-> exists stem, s = (stem ++ suffix)%string.
Proof.
  unfold endswith. rewrite andb_true_iff, Nat.leb_le, String.eqb_eq. split.
  - intros [Hlen Hsub].
    exists (substring 0 (String.length s - String.length suffix) s).
    pose proof (substring_split s (String.length s - String.length suffix)) as E.
    replace (String.length s - (String.length s - String.length suffix))%nat
      with (String.length suffix) in E by lia.
    rewrite Hsub in E. apply E. lia.
  - intros [stem ->]. rewrite string_length_append. split; [lia|].
    replace (String.length stem + String.length suffix - String.length suffix)%nat
      with (String.length stem) by lia.
    apply substring_skip.
Qed.

Lemma html_files_spec (listing : list string) (p : Page) :
  In p (html_files listing) <->
  In p listing /\ exists stem, p = (stem ++ ".html")%string.
Proof.
  unfold html_files. rewrite filter_In, endswith_spec. reflexivity.
Qed.

Lemma crawled_links_spec (listing : list string) (links : Page -> list string)
  (p q : Page) :
  In q (crawled_links listing links p) <->
  In q (links p) /\ q <> p /\ In q (html_files listing).
Proof.
  unfold crawled_links, other_links.
  rewrite !filter_In, nodup_In, mem_In, negb_true_iff, String.eqb_neq. tauto.
Qed.

(** The first loop, when every page of the listing can be read. *)
Lemma add_page_loop (fs : FileSystem) (directory : string)
  (links : Page -> list string) (listing : list string) :
  NoDup listing ->
  (forall f, In f (html_files listing) -> hrefs fs directory f = Ok (links f)) ->
  forall pages : Corpus,
    (forall f, In f listing -> ~ In f (keys pages)) ->
    foldM (add_page fs directory) listing pages
    = Ok (pages ++ map (fun f => (f, other_links f (links f))) (html_files listing)).
Proof.
  unfold html_files.
  induction 1 as [|f listing Hf Hnd IH]; intros Hread pages Hfresh.
  - simpl. now rewrite app_nil_r.
  - rewrite foldM_cons. unfold add_page at 1. simpl filter in *.
    destruct (endswith f ".html") eqn:E; simpl negb; cbv iota.
    + rewrite (Hread f) by now left. rewrite !bind_ret.
      rewrite set_fresh by (apply Hfresh; now left).
      rewrite IH.
      * simpl map. now rewrite <- app_assoc.
      * intros g Hg. apply Hread. now right.
      * intros g Hg. rewrite keys_app. simpl. intros Hin.
        apply in_app_or in Hin. destruct Hin as [Hin|[->|[]]].
        -- apply (Hfresh g); [now right | exact Hin].
        -- contradiction.
    + rewrite bind_ret. apply IH; [exact Hread|].
      intros g Hg. apply Hfresh. now right.
Qed.

(** The first loop, when some page of the listing cannot be read: the loop
    stops with the exception of such a page. *)
Lemma add_page_loop_fails (fs : FileSystem) (directory : string)
  (listing : list string) :
  forall (pages : Corpus) f e,
    In f (html_files listing) -> hrefs fs directory f = Raise e ->
    exists g e',
      In g (html_files listing) /\ hrefs fs directory g = Raise e' /\
      foldM (add_page fs directory) listing pages = Raise e'.
Proof.
  unfold html_files.
  induction listing as [|h listing IH]; intros pages f e Hin Hf; [contradiction|].
  rewrite foldM_cons. unfold add_page at 1. simpl filter in *.
  destruct (endswith h ".html") eqn:E; simpl negb; cbv iota.
  - destruct (hrefs fs directory h) as [ls|e0] eqn:Hh.
    + rewrite !bind_ret. destruct Hin as [->|Hin]; [congruence|].
      destruct (IH (set pages h (other_links h ls)) f e Hin Hf)
        as (g & e' & Hg & Hge & Hrun).
      exists g, e'. split; [now right|]. now split.
    + exists h, e0. split; [now left|]. split; [exact Hh | reflexivity].
  - rewrite bind_ret.
    destruct (IH pages f e Hin Hf) as (g & e' & Hg & Hge & Hrun).
    exists g, e'. now repeat split.
Qed.

Lemma keep_pages_loop :
  forall todo done : Corpus,
    NoDup (keys (done ++ todo)) ->
    foldM keep_pages (keys todo) (done ++ todo)
    = Ok (done ++ map (fun item =>
                         (fst item,
                          filter (fun link => mem link (keys (done ++ todo)))
                            (snd item))) todo).
Proof.
  induction todo as [|[p ls] todo IH]; intros done Hnd.
  - reflexivity.
  - assert (Hfresh : ~ In p (keys done)).
    { rewrite keys_app in Hnd. simpl in Hnd. apply NoDup_remove_2 in Hnd.
      intros Hin. apply Hnd. apply in_or_app. now left. }
    simpl keys. rewrite foldM_cons. unfold keep_pages at 1.
    rewrite (get_app_fresh done _ p Hfresh). simpl get.
    rewrite String.eqb_refl, bind_ret, bind_ret.
    rewrite (set_app_fresh done _ p _ Hfresh). simpl set.
    rewrite String.eqb_refl.
    set (K := keys (done ++ (p, ls) :: todo)).
    set (kept := filter (fun link => mem link K) ls).
    assert (HK : keys ((done ++ [(p, kept)]) ++ todo) = K).
    { unfold K. rewrite <- app_assoc, !keys_app. reflexivity. }
    replace (done ++ (p, kept) :: todo) with ((done ++ [(p, kept)]) ++ todo)
      by now rewrite <- app_assoc.
    rewrite IH by now rewrite HK.
    rewrite HK, <- app_assoc. reflexivity.
Qed.

(** [crawl] on a directory whose pages can all be read, entry by entry. *)
Lemma crawl_closed (fs : FileSystem) (directory : string)
  (links : Page -> list string) (listing : list string) :
  listdir fs directory = Ok listing -> NoDup listing ->
  (forall f, In f (html_files listing) -> hrefs fs directory f = Ok (links f)) ->
  crawl fs directory
  = Ok (map (fun f => (f, crawled_links listing links f)) (html_files listing)).
Proof.
  intros Hls Hnd Hread. unfold crawl. rewrite Hls, bind_ret.
  rewrite (add_page_loop fs directory links listing Hnd Hread [])
    by (intros f _ []).
  rewrite bind_ret. simpl app.
  set (pages := map (fun f => (f, other_links f (links f))) (html_files listing)).
  assert (Hk : keys pages = html_files listing) by apply keys_tabulate.
  assert (Hloop := keep_pages_loop pages []).
  simpl app in Hloop. rewrite Hloop by (rewrite Hk; now apply NoDup_filter).
  rewrite Hk. unfold pages. now rewrite map_map.
Qed.

(** When [crawl] returns, every page of the listing was read. *)
Lemma crawl_readable (fs : FileSystem) (directory : string)
  (listing : list string) (corpus : Corpus) :
  listdir fs directory = Ok listing -> crawl fs directory = Ok corpus ->
  forall f, In f (html_files listing) ->
    hrefs fs directory f = Ok (hrefs_read fs directory f).
Proof.
  intros Hls Hrun f Hin. unfold hrefs_read.
  destruct (hrefs fs directory f) as [ls|e] eqn:E; [reflexivity|].
  destruct (add_page_loop_fails fs directory listing [] f e Hin E)
    as (g & e' & _ & _ & Hfail).
  unfold crawl in Hrun. rewrite Hls, bind_ret, Hfail in Hrun. discriminate.
Qed.

Lemma hrefs_read_Ok (fs : FileSystem) (directory : string) (listing : list string) :
  (forall f, In f (html_files listing) ->
     exists links, hrefs fs directory f = Ok links) ->
  forall f, In f (html_files listing) ->
    hrefs fs directory f = Ok (hrefs_read fs directory f).
Proof.
  intros Hread f Hin. destruct (Hread f Hin) as [ls Hls].
  unfold hrefs_read. now rewrite Hls.
Qed.

Lemma crawl_graph (listing : list string) (links : Page -> list string) :
  NoDup listing ->
  link_graph (map (fun f => (f, crawled_links listing links f))
                (html_files listing)).
Proof.
  intros Hnd.
  assert (Hin : forall p ls,
             In (p, ls) (map (fun f => (f, crawled_links listing links f))
                           (html_files listing)) ->
             ls = crawled_links listing links p).
  { intros p ls H. apply in_map_iff in H. destruct H as (f & E & _).
    now inversion E. }
  split.
  - rewrite keys_tabulate. now apply NoDup_filter.
  - intros p ls H. rewrite (Hin _ _ H).
    apply NoDup_filter, NoDup_filter, NoDup_nodup.
  - intros p ls q H Hq. rewrite (Hin _ _ H) in Hq. rewrite keys_tabulate.
    now apply crawled_links_spec in Hq.
  - intros p ls H Hp. rewrite (Hin _ _ H) in Hp.
    apply crawled_links_spec in Hp. now destruct Hp as (_ & Hp & _).
Qed.

(** X13: when the directory can be listed and every [.html] file of the
    listing can be read, [crawl] raises nothing; the pages of the corpus are
    exactly the files of the listing whose name ends in [.html], in the order
    of the listing, and a page [p] links to [q] exactly when the file of [p]
    has an [href] to [q], [q] is not [p] itself and [q] is a page of the
    corpus. *)
Theorem crawl_pages_and_links (fs : FileSystem) (directory : string)
  (listing : list string) (links : Page -> list string) :
  listdir fs directory = Ok listing -> NoDup listing ->
  (forall f, In f (html_files listing) -> hrefs fs directory f = Ok (links f)) ->
  exists corpus,
    crawl fs directory = Ok corpus /\
    keys corpus = html_files listing /\
    (forall p, In p (keys corpus) <->
       In p listing /\ exists stem, p = (stem ++ ".html")%string) /\
    (forall p, In p (keys corpus) ->
       exists kept,
         get corpus p = Ok kept /\
         forall q, In q kept <->
           In q (links p) /\ q <> p /\ In q (keys corpus)).
Proof.
  intros Hls Hnd Hread. eexists.
  split; [now apply (crawl_closed fs directory links listing)|].
  rewrite keys_tabulate. split; [reflexivity|]. split.
  - intros p. apply html_files_spec.
  - intros p Hp. exists (crawled_links listing links p). split.
    + now apply (get_tabulate (crawled_links listing links)).
    + intros q. apply crawled_links_spec.
Qed.

Lemma crawl_pages_and_links_witness :
  listdir site "corpus" = Ok ["1.html"; "notes.txt"; "2.html"; "3.html"]%string /\
  NoDup ["1.html"; "notes.txt"; "2.html"; "3.html"]%string /\
  (forall f, In f (html_files ["1.html"; "notes.txt"; "2.html"; "3.html"]%string) ->
     hrefs site "corpus" f = Ok (site_links f)) /\
  exists corpus,
    crawl site "corpus" = Ok corpus /\
    keys corpus = html_files ["1.html"; "notes.txt"; "2.html"; "3.html"]%string /\
    (forall p, In p (keys corpus) <->
       In p ["1.html"; "notes.txt"; "2.html"; "3.html"]%string /\
       exists stem, p = (stem ++ ".html")%string) /\
    (forall p, In p (keys corpus) ->
       exists kept,
         get corpus p = Ok kept /\
         forall q, In q kept <->
           In q (site_links p) /\ q <> p /\ In q (keys corpus)).
Proof.
  assert (Hnd : NoDup ["1.html"; "notes.txt"; "2.html"; "3.html"]%string)
    by solve_nodup.
  split; [reflexivity|]. split; [exact Hnd|].
  split; [intros f _; reflexivity|].
  exact (crawl_pages_and_links site "corpus" _ site_links eq_refl Hnd
           (fun f _ => eq_refl)).
Defined.

(** X14: the corpus that [crawl] returns is a link graph: its pages are
    distinct, no page is listed twice among the links of a page, every link
    leads to a page of the corpus, and no page links to itself; and [crawl]
    does return a corpus when every [.html] file of the listing can be
    read. *)
Theorem crawl_link_graph (fs : FileSystem) (directory : string)
  (listing : list string) :
  listdir fs directory = Ok listing -> NoDup listing ->
  (forall corpus, crawl fs directory = Ok corpus -> link_graph corpus) /\
  ((forall f, In f (html_files listing) ->
      exists links, hrefs fs directory f = Ok links) ->
   exists corpus, crawl fs directory = Ok corpus /\ link_graph corpus).
Proof.
  intros Hls Hnd. split.
  - intros corpus Hrun.
    pose proof (crawl_readable fs directory listing corpus Hls Hrun) as Hread.
    rewrite (crawl_closed fs directory _ listing Hls Hnd Hread) in Hrun.
    injection Hrun as <-. now apply crawl_graph.
  - intros Hread. eexists. split.
    + apply (crawl_closed fs directory _ listing Hls Hnd
               (hrefs_read_Ok fs directory listing Hread)).
    + now apply crawl_graph.
Qed.

Lemma crawl_link_graph_witness :
  listdir site "corpus" = Ok ["1.html"; "notes.txt"; "2.html"; "3.html"]%string /\
  NoDup ["1.html"; "notes.txt"; "2.html"; "3.html"]%string /\
  (forall corpus, crawl site "corpus" = Ok corpus -> link_graph corpus) /\
  ((forall f, In f (html_files ["1.html"; "notes.txt"; "2.html"; "3.html"]%string) ->
      exists links, hrefs site "corpus" f = Ok links) ->
   exists corpus, crawl site "corpus" = Ok corpus /\ link_graph corpus).
Proof.
  assert (Hnd : NoDup ["1.html"; "notes.txt"; "2.html"; "3.html"]%string)
    by solve_nodup.
  split; [reflexivity|]. split; [exact Hnd|].
  exact (crawl_link_graph site "corpus" _ eq_refl Hnd).
Defined.

(** X19: [crawl] returns no corpus when the directory cannot be listed or
    when a [.html] file of the listing cannot be read: it raises the
    exception of the listing, or the exception of an unreadable page. *)
Theorem crawl_read_error (fs : FileSystem) (directory : string) :
  (forall e, listdir fs directory = Raise e -> crawl fs directory = Raise e) /\
  (forall listing f e,
     listdir fs directory = Ok listing ->
     In f listing -> endswith f ".html" = true ->
     hrefs fs directory f = Raise e ->
     exists g e',
       In g listing /\ endswith g ".html" = true /\
       hrefs fs directory g = Raise e' /\ crawl fs directory = Raise e').
Proof.
  split.
  - intros e Hls. unfold crawl. now rewrite Hls.
  - intros listing f e Hls Hin Hhtml Hf.
    assert (Hf' : In f (html_files listing)) by now apply filter_In.
    destruct (add_page_loop_fails fs directory listing [] f e Hf' Hf)
      as (g & e' & Hg & Hge & Hrun).
    apply filter_In in Hg. destruct Hg as [Hg Hgh].
    exists g, e'. repeat split; try assumption.
    unfold crawl. now rewrite Hls, bind_ret, Hrun.
Qed.

Lemma crawl_read_error_witness :
  crawl missing_site "corpus" = Raise OSError /\
  exists g e',
    In g ["1.html"; "notes.txt"; "2.html"; "3.html"]%string /\
    endswith g ".html" = true /\
    hrefs locked_site "corpus" g = Raise e' /\
    crawl locked_site "corpus" = Raise e'.
Proof.
  split.
  - exact (proj1 (crawl_read_error missing_site "corpus") OSError eq_refl).
  - apply (proj2 (crawl_read_error locked_site "corpus")
             ["1.html"; "notes.txt"; "2.html"; "3.html"]%string
             "2.html"%string OSError eq_refl).
    + simpl. tauto.
    + reflexivity.
    + reflexivity.
Defined.

(** ** The printing loops *)

Lemma insert_sorted_perm (x : string) (l : list string) :
  Permutation (x :: l) (insert_sorted x l).
Proof.
  induction l as [|y l IH]; simpl; [reflexivity|].
  destruct (String.leb x y); [reflexivity|].
  rewrite perm_swap. now constructor.
Qed.

Lemma sorted_perm (l : list string) : Permutation l (sorted l).
Proof.
  induction l as [|x l IH]; simpl; [constructor|].
  rewrite <- insert_sorted_perm. now constructor.
Qed.

Lemma insert_sorted_ascending (x : string) (l : list string) :
  ascending l -> ascending (insert_sorted x l).
Proof.
  unfold ascending. induction 1 as [|y l Hs IH Hhd]; simpl.
  - repeat constructor.
  - destruct (String.leb x y) eqn:E.
    + repeat constructor; assumption.
    + assert (Hyx : String.leb y x = true).
      { destruct (String.leb_total x y); congruence. }
      constructor; [exact IH|].
      destruct l as [|z l]; simpl; [now constructor|].
      destruct (String.leb x z); constructor; [exact Hyx|].
      now inversion Hhd.
Qed.

Lemma sorted_ascending (l : list string) : ascending (sorted l).
Proof.
  induction l as [|x l IH]; simpl.
  - constructor.
  - now apply insert_sorted_ascending.
Qed.

Lemma print_entries_closed (ranks : dict Q) (pages : list Page) :
  (forall p, In p pages -> In p (keys ranks)) ->
  print_entries ranks pages = (entries ranks pages, None).
Proof.
  induction pages as [|p pages IH]; intros Hin; [reflexivity|].
  destruct (get_present ranks p) as [v Hv]; [apply Hin; now left|].
  simpl. unfold val. rewrite Hv, IH; [reflexivity|].
  intros q Hq. apply Hin. now right.
Qed.

Lemma print_ranks_closed (ranks : dict Q) :
  print_ranks ranks = (entries ranks (sorted (keys ranks)), None).
Proof.
  apply print_entries_closed. intros p Hp.
  apply (Permutation_in p (Permutation_sym (sorted_perm (keys ranks))) Hp).
Qed.

(** X15: the printing loop of [main] raises nothing; it prints one line for
    each page of the ranks, with the rank stored for that page, and the
    pages come in ascending order of their names. *)
Theorem print_ranks_sorted (ranks : dict Q) :
  exists pages,
    print_ranks ranks = (map (fun p => Entry p (val ranks p)) pages, None) /\
    Permutation (keys ranks) pages /\
    ascending pages /\
    forall p, In p pages -> get ranks p = Ok (val ranks p).
Proof.
  exists (sorted (keys ranks)). split; [apply print_ranks_closed|].
  split; [apply sorted_perm|]. split; [apply sorted_ascending|].
  intros p Hp.
  destruct (get_present ranks p) as [v Hv].
  - apply (Permutation_in p (Permutation_sym (sorted_perm (keys ranks))) Hp).
  - unfold val. now rewrite Hv.
Qed.

Lemma print_ranks_sorted_witness :
  exists pages,
    print_ranks [("b.html"%string, 1 # 4); ("a.html"%string, 3 # 4)]
    = (map (fun p => Entry p (val [("b.html"%string, 1 # 4);
                                   ("a.html"%string, 3 # 4)] p)) pages, None) /\
    Permutation (keys [("b.html"%string, 1 # 4); ("a.html"%string, 3 # 4)]) pages /\
    ascending pages /\
    forall p, In p pages ->
      get [("b.html"%string, 1 # 4); ("a.html"%string, 3 # 4)] p
      = Ok (val [("b.html"%string, 1 # 4); ("a.html"%string, 3 # 4)] p).
Proof.
  exact (print_ranks_sorted [("b.html"%string, 1 # 4); ("a.html"%string, 3 # 4)]).
Defined.

(** ** [main] *)

Lemma sample_pagerank_no_pages (rnd : RandomSource) d n :
  sample_pagerank rnd [] d n = Raise IndexError.
Proof.
  unfold sample_pagerank, sample_counts. simpl keys.
  now rewrite random_choice_empty.
Qed.

(** X17: on a directory without [.html] files, [main] stops with an
    [IndexError], raised by [random.choice] on the empty corpus, before it
    prints anything. *)
Theorem main_no_pages (fuel : nat) (rnd : RandomSource) (fs : FileSystem)
  (program directory : string) (listing : list string) :
  listdir fs directory = Ok listing -> NoDup listing -> html_files listing = [] ->
  main fuel rnd fs [program; directory] = Some (Uncaught IndexError []).
Proof.
  intros Hls Hnd Hnone. unfold main. simpl length. simpl nth. simpl negb. cbv iota.
  rewrite (crawl_closed fs directory (fun _ => []) listing Hls Hnd)
    by (rewrite Hnone; intros f []).
  rewrite Hnone. simpl map.
  now rewrite sample_pagerank_no_pages.
Qed.

Lemma main_no_pages_witness :
  listdir empty_site "corpus" = Ok ["notes.txt"%string] /\
  NoDup ["notes.txt"%string] /\ html_files ["notes.txt"%string] = [] /\
  main 0 (fun _ => O) empty_site ["pagerank.py"; "corpus"]%string
  = Some (Uncaught IndexError []).
Proof.
  assert (Hnd : NoDup ["notes.txt"%string]) by solve_nodup.
  split; [reflexivity|]. split; [exact Hnd|]. split; [reflexivity|].
  exact (main_no_pages 0 (fun _ => O) empty_site "pagerank.py" "corpus"
           ["notes.txt"%string] eq_refl Hnd eq_refl).
Defined.

(** X18: on a directory whose [.html] files, at least one, can all be read,
    [main] raises nothing: the sampling returns its ranks, and either the
    iteration is still running after [fuel] passes, or [main] reaches its
    normal end, having printed the sampling title, one line per page with the
    rank from [sample_pagerank] at [DAMPING] and [SAMPLES], the iteration
    title, and one line per page with the rank from [iterate_pagerank] at
    [DAMPING], both lists in ascending order of the page names. *)
Theorem main_never_raises (fuel : nat) (rnd : RandomSource) (fs : FileSystem)
  (program directory : string) (listing : list string) :
  listdir fs directory = Ok listing -> NoDup listing ->
  html_files listing <> [] ->
  (forall f, In f (html_files listing) ->
     exists links, hrefs fs directory f = Ok links) ->
  exists corpus sampled,
    crawl fs directory = Ok corpus /\
    sample_pagerank rnd corpus DAMPING SAMPLES = Ok sampled /\
    keys sampled = keys corpus /\
    ((iterate_pagerank fuel corpus DAMPING = None /\
      main fuel rnd fs [program; directory] = None) \/
     exists iterated,
       iterate_pagerank fuel corpus DAMPING = Some (Ok iterated) /\
       keys iterated = keys corpus /\
       main fuel rnd fs [program; directory]
       = Some (Finished
                 (SamplingTitle SAMPLES
                  :: entries sampled (sorted (keys corpus))
                  ++ IterationTitle :: entries iterated (sorted (keys corpus))))).
Proof.
  intros Hls Hnd Hsome Hread.
  set (corpus := map (fun f => (f, crawled_links listing (hrefs_read fs directory) f))
                   (html_files listing)).
  assert (Hcrawl : crawl fs directory = Ok corpus).
  { apply (crawl_closed fs directory _ listing Hls Hnd).
    now apply hrefs_read_Ok. }
  assert (Hg : link_graph corpus) by now apply crawl_graph.
  assert (Hne : corpus <> []).
  { unfold corpus. destruct (html_files listing); [congruence | discriminate]. }
  destruct (sample_pagerank_walk rnd corpus DAMPING SAMPLES Hg Hne)
    as (counts & _ & Hsample & Hkc & _); [unfold SAMPLES; lia|].
  exists corpus, (proportions SAMPLES counts).
  assert (Hks : keys (proportions SAMPLES counts) = keys corpus).
  { now rewrite keys_proportions. }
  split; [exact Hcrawl|]. split; [exact Hsample|]. split; [exact Hks|].
  unfold main. simpl length. simpl nth. simpl negb. cbv iota.
  rewrite Hcrawl, Hsample, print_ranks_closed.
  destruct (iterate_pagerank_outcome fuel corpus DAMPING (keys_unique _ Hg) Hne)
    as [Hnone|(result & Hrun & Hkr)].
  - left. rewrite Hnone. now split.
  - right. exists result. split; [exact Hrun|]. split; [exact Hkr|].
    rewrite Hrun, print_ranks_closed. now rewrite Hks, Hkr.
Qed.

Lemma main_never_raises_witness :
  listdir site "corpus" = Ok ["1.html"; "notes.txt"; "2.html"; "3.html"]%string /\
  NoDup ["1.html"; "notes.txt"; "2.html"; "3.html"]%string /\
  html_files ["1.html"; "notes.txt"; "2.html"; "3.html"]%string <> [] /\
  (forall f, In f (html_files ["1.html"; "notes.txt"; "2.html"; "3.html"]%string) ->
     exists links, hrefs site "corpus" f = Ok links) /\
  exists corpus sampled,
    crawl site "corpus" = Ok corpus /\
    sample_pagerank (fun _ => O) corpus DAMPING SAMPLES = Ok sampled /\
    keys sampled = keys corpus /\
    ((iterate_pagerank 3 corpus DAMPING = None /\
      main 3 (fun _ => O) site ["pagerank.py"; "corpus"]%string = None) \/
     exists iterated,
       iterate_pagerank 3 corpus DAMPING = Some (Ok iterated) /\
       keys iterated = keys corpus /\
       main 3 (fun _ => O) site ["pagerank.py"; "corpus"]%string
       = Some (Finished
                 (SamplingTitle SAMPLES
                  :: entries sampled (sorted (keys corpus))
                  ++ IterationTitle :: entries iterated (sorted (keys corpus))))).
Proof.
  assert (Hnd : NoDup ["1.html"; "notes.txt"; "2.html"; "3.html"]%string)
    by solve_nodup.
  assert (Hsome : html_files ["1.html"; "notes.txt"; "2.html"; "3.html"]%string <> [])
    by discriminate.
  assert (Hread : forall f,
             In f (html_files ["1.html"; "notes.txt"; "2.html"; "3.html"]%string) ->
             exists links, hrefs site "corpus" f = Ok links).
  { intros f _. exists (site_links f). reflexivity. }
  split; [reflexivity|]. split; [exact Hnd|]. split; [exact Hsome|].
  split; [exact Hread|].
  exact (main_never_raises 3 (fun _ => O) site "pagerank.py" "corpus" _
           eq_refl Hnd Hsome Hread).
Defined.
